(** * pkg/scheduler/multischeduler/generic.go

    A shallow embedding of the generic scheduler wrapper of tensile-kube
    ([NewScheduler], [Scheduler.Run], [getRecorderFactory]) and the
    properties of its lifecycle.

    Each Go package the file imports is a [Module] of the same name.  The
    three functions of the file itself live in [Module multischeduler] and
    are written in a small state monad: a call either returns, blocks for
    ever, or panics. *)

From stdpp Require Import base option list gmap strings.
From Stdlib Require Import Lia.

Set Default Proof Using "Type".

(** ** Go values shared by every package *)

(** A Go [error] value, identified with what [Error()] prints. *)
Record error := mkError { Error : string }.

(** A [<-chan struct{}]: the identity of the channel.  Nothing is ever sent
    on these channels; they are only closed. *)
Definition chan := nat.

(** Discrete time. *)
Definition time := nat.

(** The name of a data feed (an informer's resource: pods, nodes, ...). *)
Definition feed := string.

(** ** The monad of the embedding

    [Returns a s]: the call returned [a]; [Blocks s]: the goroutine is
    parked for ever; [Panics s]: a runtime panic (nil interface call). *)
Inductive Res (S A : Type) :=
| Returns (a : A) (s : S)
| Blocks (s : S)
| Panics (s : S).
Arguments Returns {S A} a s.
Arguments Blocks {S A} s.
Arguments Panics {S A} s.

Definition M (S A : Type) : Type := S → Res S A.

Definition M_ret {S A} (a : A) : M S A := λ s, Returns a s.

Definition M_bind {S A B} (f : A → M S B) (m : M S A) : M S B :=
  λ s, match m s with
       | Returns a s' => f a s'
       | Blocks s' => Blocks s'
       | Panics s' => Panics s'
       end.

#[global] Instance M_mret S : MRet (M S) := @M_ret S.
#[global] Instance M_mbind S : MBind (M S) := @M_bind S.

Definition panic {S A} : M S A := λ s, Panics s.
Definition get {S} : M S S := λ s, Returns s s.
Definition modify {S} (f : S → S) : M S unit := λ s, Returns tt (f s).

(** Calling a method on an interface value: a nil interface panics. *)
Definition deref {S A} (x : option A) : M S A :=
  match x with
  | Some a => mret a
  | None => panic
  end.

(** The final state of a call, whatever its outcome. *)
Definition final {S A} (r : Res S A) : S :=
  match r with
  | Returns _ s | Blocks s | Panics s => s
  end.

(** The value a call returned, if it returned. *)
Definition returned {S A} (r : Res S A) : option A :=
  match r with
  | Returns a _ => Some a
  | _ => None
  end.

(** ** fmt *)
Module fmt.

Definition Errorf (format : string) : error := mkError format.

End fmt.

(** ** context *)
Module context.

Record Context := { Done : chan }.

End context.

(** ** k8s.io/client-go/kubernetes/scheme and k8s.io/api *)
Module scheme.

Inductive RuntimeScheme := Scheme.

End scheme.

Module v1.

Record EventSource := { Component : string }.

End v1.

Module eventsv1beta1.

(** [SchemeGroupVersion.String()] of k8s.io/api/events/v1beta1. *)
Definition SchemeGroupVersion_String : string := "events.k8s.io/v1beta1".

End eventsv1beta1.

(** ** k8s.io/client-go/tools/record: the legacy event API *)
Module record.

(** The identity of a legacy broadcaster supplied by the caller. *)
Definition EventBroadcaster := nat.

Inductive EventRecorder :=
| NewRecorder (b : EventBroadcaster) (s : scheme.RuntimeScheme) (source : v1.EventSource).

End record.

(** ** k8s.io/client-go/tools/events: the modern event API *)
Module events.

(** The identity of an events client ([v1beta1.EventsGetter]). *)
Definition EventsGetter := nat.

(** [getter.Events(namespace)]. *)
Record EventInterface := Events { getter : EventsGetter; namespace : string }.

Record EventSinkImpl := { Interface : EventInterface }.

(** A broadcaster is either one the caller supplied (known by identity) or
    one built by [NewBroadcaster] on a sink. *)
Inductive EventBroadcaster :=
| Supplied (id : nat)
| NewBroadcaster (sink : EventSinkImpl).

(** A modern recorder is obtained from a broadcaster
    ([b.NewRecorder(scheme, name)]), or is the adapter
    [record.NewEventRecorderAdapter] around a legacy recorder. *)
Inductive EventRecorder :=
| NewRecorder (b : EventBroadcaster) (s : scheme.RuntimeScheme) (reportingController : string)
| NewEventRecorderAdapter (r : record.EventRecorder).

End events.

(** ** k8s.io/kubernetes/pkg/scheduler/profile *)
Module profile.

(** [type RecorderFactory func(string) events.EventRecorder]; [None] when
    the call panics. *)
Definition RecorderFactory := string → option events.EventRecorder.

(** The closure calls [b.NewRecorder(scheme.Scheme, name)] on the
    interface value it was given. *)
Definition NewRecorderFactory (b : option events.EventBroadcaster) : RecorderFactory :=
  λ name, b' ← b; Some (events.NewRecorder b' scheme.Scheme name).

End profile.

(** ** k8s.io/kubernetes/pkg/scheduler/framework/v1alpha1 *)
Module framework.

(** The identity of a plugin constructor. *)
Definition PluginFactory := nat.

(** [type Registry map[string]PluginFactory]. *)
Abbreviation Registry := (gmap string PluginFactory).

(** [make(framework.Registry)]. *)
Definition make_Registry : Registry := ∅.

End framework.

(** ** k8s.io/client-go/tools/cache: informers *)
Module cache.

(** [type InformerSynced func() bool]: the function is known by the feed
    whose synced flag it reads. *)
Definition InformerSynced := feed.

(** A shared informer, with its [HasSynced] method. *)
Record SharedIndexInformer := { HasSynced : InformerSynced }.

End cache.

(** ** k8s.io/client-go/informers *)
Module informers.

(** The pod informer of the configuration; [Informer()] gives the shared
    informer it drives. *)
Record PodInformer := { Informer : cache.SharedIndexInformer }.

(** A shared informer factory with the informers registered in it. *)
Record SharedInformerFactory := { registered : list cache.SharedIndexInformer }.

End informers.

(** ** k8s.io/kubernetes/cmd/kube-scheduler/app/config

    Imported twice by the source, as [schedulerappconfig] and as
    [schedulerserverconfig]. *)
Module schedulerappconfig.

(** The identity of a clientset. *)
Definition Client_Interface := nat.

Record KubeSchedulerProfile := { SchedulerName : string }.
Record SchedulerAlgorithmSource := { Provider : option string }.
Record Extender := { URLPrefix : string }.

(** The fields of [KubeSchedulerConfiguration] the source reads. *)
Record KubeSchedulerConfiguration := {
  Profiles : list KubeSchedulerProfile;
  AlgorithmSource : SchedulerAlgorithmSource;
  DisablePreemption : bool;
  PercentageOfNodesToScore : Z;
  BindTimeoutSeconds : Z;
  PodMaxBackoffSeconds : Z;
  PodInitialBackoffSeconds : Z;
  Extenders : list Extender;
}.

(** The seven fields of [Config] that generic.go reads or writes; what is
    said of the configuration below is said of these.  Interface-typed
    fields are options: [None] is the nil interface. *)
Record Config := {
  ComponentConfig : KubeSchedulerConfiguration;
  Client : option Client_Interface;
  InformerFactory : option informers.SharedInformerFactory;
  PodInformer : option informers.PodInformer;
  CoreBroadcaster : option record.EventBroadcaster;
  EventClient : option events.EventsGetter;
  Broadcaster : option events.EventBroadcaster;
}.

(** A [CompletedConfig] wraps a [*Config].  The one configuration whose
    address this package takes is the parameter [cc] of [NewScheduler]. *)
Inductive CompletedConfig := address_of_cc.

(** [cc.Broadcaster = b]. *)
Definition set_Broadcaster (b : option events.EventBroadcaster) (cc : Config) : Config :=
  {| ComponentConfig := ComponentConfig cc;
     Client := Client cc;
     InformerFactory := InformerFactory cc;
     PodInformer := PodInformer cc;
     CoreBroadcaster := CoreBroadcaster cc;
     EventClient := EventClient cc;
     Broadcaster := b |}.

End schedulerappconfig.

(** ** k8s.io/kubernetes/pkg/scheduler *)
Module scheduler.

(** The identity of a constructed Scheduler Core. *)
Record Scheduler := { core : nat }.

(** The functional options of [scheduler.New]. *)
Inductive Option :=
| WithProfiles (p : list schedulerappconfig.KubeSchedulerProfile)
| WithAlgorithmSource (source : schedulerappconfig.SchedulerAlgorithmSource)
| WithPreemptionDisabled (disablePreemption : bool)
| WithPercentageOfNodesToScore (percentageOfNodesToScore : Z)
| WithBindTimeoutSeconds (bindTimeoutSeconds : Z)
| WithFrameworkOutOfTreeRegistry (registry : framework.Registry)
| WithPodMaxBackoffSeconds (podMaxBackoffSeconds : Z)
| WithPodInitialBackoffSeconds (podInitialBackoffSeconds : Z)
| WithExtenders (e : list schedulerappconfig.Extender).

(** The arguments of one call of [scheduler.New]. *)
Record NewArgs := {
  client : option schedulerappconfig.Client_Interface;
  informerFactory : option informers.SharedInformerFactory;
  podInformer : option informers.PodInformer;
  recorderFactory : profile.RecorderFactory;
  stopCh : chan;
  opts : list Option;
}.

(** Options are applied in order, so the last registry option wins; without
    one the core has no out-of-tree registry. *)
Definition frameworkOutOfTreeRegistry (os : list Option) : option framework.Registry :=
  foldl (λ acc o, match o with
                  | WithFrameworkOutOfTreeRegistry r => Some r
                  | _ => acc
                  end) None os.

End scheduler.

(** ** The environment of construction

    What lies outside the package when [NewScheduler] runs: what API
    discovery answers to a client, and what the external constructor
    [scheduler.New] returns.  Both are parameters of the embedding. *)
Record Cluster := {
  (** the error result of [client.Discovery().ServerResourcesForGroupVersion(gv)];
      [None] is a nil error *)
  discovery : schedulerappconfig.Client_Interface → string → option error;
  (** the two results of [scheduler.New] *)
  construct : scheduler.NewArgs → option scheduler.Scheduler * option error;
}.

(** The calls that leave the package during construction. *)
Inductive Call :=
| ServerResourcesForGroupVersion (c : schedulerappconfig.Client_Interface) (groupVersion : string)
| scheduler_New (args : scheduler.NewArgs).

(** The frame of one call of [NewScheduler]: its parameter [cc], a local
    variable whose address [cc.Complete()] takes, and the calls made so
    far.  A [*CompletedConfig] is a pointer to that variable, so the code
    that receives one reads and writes [frame_cc]. *)
Record Frame := {
  frame_cc : schedulerappconfig.Config;
  calls : list Call;
}.

Definition call (c : Call) : M Frame unit :=
  modify (λ s, {| frame_cc := frame_cc s; calls := calls s ++ [c] |}).

(** Writing and reading through a [*CompletedConfig]. *)
Definition store (p : schedulerappconfig.CompletedConfig)
    (f : schedulerappconfig.Config → schedulerappconfig.Config) : M Frame unit :=
  modify (λ s, {| frame_cc := f (frame_cc s); calls := calls s |}).

Definition load (p : schedulerappconfig.CompletedConfig) : M Frame schedulerappconfig.Config :=
  s ← get; mret (frame_cc s).

(** [cc.Complete()] returns the address of its receiver, wrapped.  The
    library function also writes to its receiver (the names of the serving
    endpoints, the authentication and authorization of the loopback client):
    those are fields outside the seven of [Config], which it leaves alone, so
    here it is the pointer and nothing else.  Nothing below speaks of the
    fields it writes. *)
Definition Complete : M Frame schedulerappconfig.CompletedConfig :=
  mret schedulerappconfig.address_of_cc.

(** ** The environment of a run

    Modelled from the spec: the shutdown signal and the context's done
    channel are closed at most once by their owners (section 3,
    ShutdownSignal), and each data feed turns synced at most once (section
    3, DataFeed).  A timeline fixes when, if ever, each of these happens; a
    nil channel is one that is never closed. *)
Record Timeline := {
  closed_at : chan → option time;
  synced_at : feed → option time;
}.

(** Feed [f] is synced at time [T]; channel [c] is closed at time [T]. *)
Definition synced_by (tl : Timeline) (T : time) (f : feed) : Prop :=
  ∃ t, synced_at tl f = Some t ∧ t ≤ T.

Definition closed_by (tl : Timeline) (T : time) (c : chan) : Prop :=
  ∃ t, closed_at tl c = Some t ∧ t ≤ T.

#[global] Instance synced_by_dec tl T f : Decision (synced_by tl T f).
Proof.
  unfold synced_by. destruct (synced_at tl f) as [t|].
  - destruct (decide (t ≤ T)); [left; eauto|right; intros (? & [= <-] & ?); lia].
  - right. intros (? & [=] & _).
Defined.

#[global] Instance closed_by_dec tl T c : Decision (closed_by tl T c).
Proof.
  unfold closed_by. destruct (closed_at tl c) as [t|].
  - destruct (decide (t ≤ T)); [left; eauto|right; intros (? & [= <-] & ?); lia].
  - right. intros (? & [=] & _).
Defined.

(** A wait on [feeds] that [stopCh] cancels can end at time [T]: every feed
    is synced, or the channel is closed. *)
Definition gate_open (tl : Timeline) (stopCh : chan) (feeds : list feed) (T : time) : Prop :=
  Forall (synced_by tl T) feeds ∨ closed_by tl T stopCh.

#[global] Instance gate_open_dec tl stopCh feeds T : Decision (gate_open tl stopCh feeds T).
Proof. unfold gate_open. apply _. Defined.

(** [T] is the first time from [from] on at which [P] holds. *)
Definition earliest (P : time → Prop) (from T : time) : Prop :=
  from ≤ T ∧ P T ∧ ∀ T', from ≤ T' → T' < T → ¬ P T'.

(** The calls that leave the package during a run, in program order. *)
Inductive Event :=
| StartRecordingToSink (b : events.EventBroadcaster) (stopCh : chan)
| go_Run (informer : cache.SharedIndexInformer) (stopCh : chan)
| Start (stopCh : chan)
| Factory_WaitForCacheSync (stopCh : chan)
| cache_WaitForCacheSync (stopCh : chan) (cacheSyncs : list cache.InformerSynced)
| receive (c : chan).

(** The step of [Run] a call belongs to. *)
Inductive Step := recording | launching | waiting | receiving.

Definition step_of (e : Event) : Step :=
  match e with
  | StartRecordingToSink _ _ => recording
  | go_Run _ _ | Start _ => launching
  | Factory_WaitForCacheSync _ | cache_WaitForCacheSync _ _ => waiting
  | receive _ => receiving
  end.

(** The channel a call is given. *)
Definition chan_of (e : Event) : chan :=
  match e with
  | StartRecordingToSink _ c | go_Run _ c | Start c
  | Factory_WaitForCacheSync c | cache_WaitForCacheSync c _ | receive c => c
  end.

#[global] Instance Step_eq_dec : EqDecision Step.
Proof. solve_decision. Defined.

(** The state of the goroutine that runs [Run]: its clock, the informers
    the factory has started, and the calls made so far. *)
Record Proc := {
  now : time;
  startedInformers : list cache.SharedIndexInformer;
  trace : list Event;
}.

Definition emit (e : Event) : M Proc unit :=
  modify (λ s, {| now := now s; startedInformers := startedInformers s;
                  trace := trace s ++ [e] |}).

(** Park the goroutine until time [t] (no effect if [t] is past). *)
Definition park_until (t : time) : M Proc unit :=
  modify (λ s, {| now := now s `max` t; startedInformers := startedInformers s;
                  trace := trace s |}).

Definition mark_started (i : cache.SharedIndexInformer) : M Proc unit :=
  modify (λ s, {| now := now s; startedInformers := startedInformers s ++ [i];
                  trace := trace s |}).

(** The same state with the calls [p] made beforehand. *)
Definition prefix_trace (p : list Event) (s : Proc) : Proc :=
  {| now := now s; startedInformers := startedInformers s; trace := p ++ trace s |}.

(** The same outcome in another state. *)
Definition map_state {S A} (f : S → S) (r : Res S A) : Res S A :=
  match r with
  | Returns a s => Returns a (f s)
  | Blocks s => Blocks (f s)
  | Panics s => Panics (f s)
  end.

(** A computation that does not read the trace: run after the calls [p],
    it does what it does without them. *)
Definition framed {A} (m : M Proc A) : Prop :=
  ∀ p n st tr,
    m {| now := n; startedInformers := st; trace := p ++ tr |} =
    map_state (prefix_trace p) (m {| now := n; startedInformers := st; trace := tr |}).

#[global] Instance SharedIndexInformer_eq_dec : EqDecision cache.SharedIndexInformer.
Proof. solve_decision. Defined.

Section run_primitives.
Variable tl : Timeline.

(** Modelled from the spec: [<-c] on a channel that is only ever closed
    (section 3, ShutdownSignal): returns once the channel is closed, at once
    if it already is, never if it never is. *)
Definition recv (c : chan) : M Proc unit :=
  emit (receive c);;
  match closed_at tl c with
  | Some t => park_until t
  | None => Blocks
  end.

(** The time from which every function of [cacheSyncs] reports true. *)
Fixpoint populated (cacheSyncs : list cache.InformerSynced) : option time :=
  match cacheSyncs with
  | [] => Some 0
  | f :: fs => t ← synced_at tl f; t' ← populated fs; Some (t `max` t')
  end.

(** Modelled from the spec: [cache.WaitForCacheSync(stopCh, cacheSyncs...)]
    is the SyncGate's [WaitForSync] (section 4.2): it blocks until either
    every tracked feed is synced (true) or the cancel signal fires first
    (false).  The feeds are examined first, as client-go does when it
    polls, so a gate that is already open (in particular one that tracks no
    feed) gives true at once. *)
Definition WaitForCacheSync (stopCh : chan) (cacheSyncs : list cache.InformerSynced) : M Proc bool :=
  emit (cache_WaitForCacheSync stopCh cacheSyncs);;
  s ← get;
  match populated cacheSyncs, closed_at tl stopCh with
  | Some p, Some c =>
      if decide (now s `max` p ≤ now s `max` c)
      then park_until p;; mret true
      else park_until c;; mret false
  | Some p, None => park_until p;; mret true
  | None, Some c => park_until c;; mret false
  | None, None => Blocks
  end.

(** Modelled from the spec: [StartRecordingToSink(shutdownSignal)] of the
    broadcaster (section 6): fire-and-forget. *)
Definition Broadcaster_StartRecordingToSink (b : events.EventBroadcaster) (stopCh : chan) : M Proc unit :=
  emit (StartRecordingToSink b stopCh).

(** Modelled from the spec: [go informer.Run(shutdownSignal)] launches an
    Informer Driver as an independent task (sections 2 and 6). *)
Definition go_Informer_Run (i : cache.SharedIndexInformer) (stopCh : chan) : M Proc unit :=
  emit (go_Run i stopCh).

(** Modelled from the spec: [Start(shutdownSignal)] of the informer factory
    (section 6): a fire-and-forget launch of all its feeds that are not
    running yet. *)
Fixpoint start_each (infs : list cache.SharedIndexInformer) (stopCh : chan) : M Proc unit :=
  match infs with
  | [] => mret tt
  | i :: infs' =>
      s ← get;
      (if decide (i ∈ startedInformers s) then mret tt
       else go_Informer_Run i stopCh;; mark_started i);;
      start_each infs' stopCh
  end.

Definition InformerFactory_Start (f : informers.SharedInformerFactory) (stopCh : chan) : M Proc unit :=
  emit (Start stopCh);;
  start_each (informers.registered f) stopCh.

(** Modelled from the spec: [WaitForCacheSync(shutdownSignal) ->
    map[feedID]bool] of the informer factory (section 6): waits, one feed
    after the other, for each feed it has started, and reports which are
    synced. *)
Fixpoint wait_each (infs : list cache.SharedIndexInformer) (stopCh : chan)
    : M Proc (list (cache.SharedIndexInformer * bool)) :=
  match infs with
  | [] => mret []
  | i :: infs' =>
      b ← WaitForCacheSync stopCh [cache.HasSynced i];
      res ← wait_each infs' stopCh;
      mret ((i, b) :: res)
  end.

Definition InformerFactory_WaitForCacheSync (f : informers.SharedInformerFactory) (stopCh : chan)
    : M Proc (list (cache.SharedIndexInformer * bool)) :=
  emit (Factory_WaitForCacheSync stopCh);;
  s ← get;
  wait_each (filter (λ i, i ∈ startedInformers s) (informers.registered f)) stopCh.

End run_primitives.

(** ** pkg/scheduler/multischeduler *)
Module multischeduler.

Import schedulerappconfig.

(** [Scheduler] define the scheduler struct: the embedded
    [*scheduler.Scheduler], the configuration of the scheduler and the stop
    signal. *)
Record Scheduler := {
  Scheduler_embedded : option scheduler.Scheduler;
  Config : schedulerappconfig.Config;
  StopCh : chan;
}.

Section construction.
Variable k : Cluster.

(** [cc.Client.Discovery().ServerResourcesForGroupVersion(gv)], its error
    result. *)
Definition Discovery_ServerResourcesForGroupVersion (client : option Client_Interface)
    (groupVersion : string) : M Frame (option error) :=
  c ← deref client;
  call (ServerResourcesForGroupVersion c groupVersion);;
  mret (discovery k c groupVersion).

(** [scheduler.New(...)]: the call, and the two results [construct] has for
    it.  The library function is taken as a function of its arguments; that
    it may panic, or call the factory it is handed, is not modelled, so the
    properties below speak of the call and of what follows from its results,
    not of whether it returns. *)
Definition New (args : scheduler.NewArgs) : M Frame (option scheduler.Scheduler * option error) :=
  call (scheduler_New args);;
  mret (construct k args).

(** generic.go, lines 97-106.  The closure of the second branch reads
    [cc.CoreBroadcaster] through the pointer when it is called; nothing
    writes that field, so it is read here when the closure is made. *)
Definition getRecorderFactory (cc : CompletedConfig) : M Frame profile.RecorderFactory :=
  c ← load cc;
  err ← Discovery_ServerResourcesForGroupVersion (Client c) eventsv1beta1.SchemeGroupVersion_String;
  match err with
  | None =>
      c ← load cc;
      eventClient ← deref (EventClient c);
      store cc (set_Broadcaster
        (Some (events.NewBroadcaster {| events.Interface := events.Events eventClient "" |})));;
      c ← load cc;
      mret (profile.NewRecorderFactory (Broadcaster c))
  | Some _ =>
      c ← load cc;
      mret (λ name,
        r ← (b ← CoreBroadcaster c;
             Some (record.NewRecorder b scheme.Scheme {| v1.Component := name |}));
        Some (events.NewEventRecorderAdapter r))
  end.

(** generic.go, lines 46-74.  The parameter [cc] is the variable of the
    frame; [NewScheduler] is the outcome of its body run in that frame. *)
Definition NewScheduler (ctx : context.Context) (cc : schedulerappconfig.Config) (stopCh : chan)
    : Res Frame (option Scheduler * option error) :=
  (let outOfTreeRegistry := framework.make_Registry in
   completedConfig ← Complete;
   recordFactory ← getRecorderFactory completedConfig;
   (* Create the scheduler. *)
   cc ← load completedConfig;
   '(sched, err) ← New {|
     scheduler.client := Client cc;
     scheduler.informerFactory := InformerFactory cc;
     scheduler.podInformer := PodInformer cc;
     scheduler.recorderFactory := recordFactory;
     scheduler.stopCh := stopCh;
     scheduler.opts := [
       scheduler.WithProfiles (Profiles (ComponentConfig cc));
       scheduler.WithAlgorithmSource (AlgorithmSource (ComponentConfig cc));
       scheduler.WithPreemptionDisabled (DisablePreemption (ComponentConfig cc));
       scheduler.WithPercentageOfNodesToScore (PercentageOfNodesToScore (ComponentConfig cc));
       scheduler.WithBindTimeoutSeconds (BindTimeoutSeconds (ComponentConfig cc));
       scheduler.WithFrameworkOutOfTreeRegistry outOfTreeRegistry;
       scheduler.WithPodMaxBackoffSeconds (PodMaxBackoffSeconds (ComponentConfig cc));
       scheduler.WithPodInitialBackoffSeconds (PodInitialBackoffSeconds (ComponentConfig cc));
       scheduler.WithExtenders (Extenders (ComponentConfig cc)) ] |};
   match err with
   | Some err => mret (None, Some err)
   | None =>
       cc ← load completedConfig;
       mret (Some {| Config := cc; Scheduler_embedded := sched; StopCh := stopCh |}, None)
   end) {| frame_cc := cc; calls := [] |}.

(** The arguments [NewScheduler] builds for [scheduler.New] from the
    configuration [cc] as it stands after [getRecorderFactory]. *)
Definition New_args (cc : schedulerappconfig.Config) (recordFactory : profile.RecorderFactory)
    (stopCh : chan) : scheduler.NewArgs :=
  {| scheduler.client := Client cc;
     scheduler.informerFactory := InformerFactory cc;
     scheduler.podInformer := PodInformer cc;
     scheduler.recorderFactory := recordFactory;
     scheduler.stopCh := stopCh;
     scheduler.opts := [
       scheduler.WithProfiles (Profiles (ComponentConfig cc));
       scheduler.WithAlgorithmSource (AlgorithmSource (ComponentConfig cc));
       scheduler.WithPreemptionDisabled (DisablePreemption (ComponentConfig cc));
       scheduler.WithPercentageOfNodesToScore (PercentageOfNodesToScore (ComponentConfig cc));
       scheduler.WithBindTimeoutSeconds (BindTimeoutSeconds (ComponentConfig cc));
       scheduler.WithFrameworkOutOfTreeRegistry framework.make_Registry;
       scheduler.WithPodMaxBackoffSeconds (PodMaxBackoffSeconds (ComponentConfig cc));
       scheduler.WithPodInitialBackoffSeconds (PodInitialBackoffSeconds (ComponentConfig cc));
       scheduler.WithExtenders (Extenders (ComponentConfig cc)) ] |}.

(** The broadcaster of the first branch of [getRecorderFactory]. *)
Definition sink_broadcaster (eventClient : events.EventsGetter) : events.EventBroadcaster :=
  events.NewBroadcaster {| events.Interface := events.Events eventClient "" |}.

(** The closure of the second branch of [getRecorderFactory]. *)
Definition adapter_factory (coreBroadcaster : option record.EventBroadcaster)
    : profile.RecorderFactory :=
  λ name,
    r ← (b ← coreBroadcaster;
         Some (record.NewRecorder b scheme.Scheme {| v1.Component := name |}));
    Some (events.NewEventRecorderAdapter r).

(** How [NewScheduler] ends once [scheduler.New] has been called with
    [New_args cc recordFactory stopCh]. *)
Definition NewScheduler_end (cc : schedulerappconfig.Config) (recordFactory : profile.RecorderFactory)
    (stopCh : chan) (c : Client_Interface) : Res Frame (option Scheduler * option error) :=
  let args := New_args cc recordFactory stopCh in
  let s := {| frame_cc := cc;
              calls := [ServerResourcesForGroupVersion c eventsv1beta1.SchemeGroupVersion_String;
                        scheduler_New args] |} in
  match construct k args with
  | (_, Some err) => Returns (None, Some err) s
  | (sched, None) =>
      Returns (Some {| Config := cc; Scheduler_embedded := sched; StopCh := stopCh |}, None) s
  end.

End construction.

Section run.
Variable tl : Timeline.

(** generic.go, lines 77-95. *)
Definition Run (sched : Scheduler) (ctx : context.Context) : M Proc (option error) :=
  (* Prepare the event broadcaster. *)
  match Broadcaster (Config sched), EventClient (Config sched) with
  | Some b, Some _ => Broadcaster_StartRecordingToSink b (StopCh sched)
  | _, _ => mret tt
  end;;
  (* Start all informers. *)
  podInformer ← deref (PodInformer (Config sched));
  go_Informer_Run (informers.Informer podInformer) (StopCh sched);;
  informerFactory ← deref (InformerFactory (Config sched));
  InformerFactory_Start informerFactory (StopCh sched);;
  (* Wait for all caches to sync before scheduling. *)
  InformerFactory_WaitForCacheSync tl informerFactory (StopCh sched);;
  synced ← WaitForCacheSync tl (context.Done ctx) [];
  if negb synced then mret (Some (fmt.Errorf "failed to wait cache sync"))
  else
    recv tl (StopCh sched);;
    mret None.

(** Steps 1 to 3 of [Run] (lines 78-85): the broadcaster and the informers. *)
Definition Run_launch (sched : Scheduler) : M Proc unit :=
  match Broadcaster (Config sched), EventClient (Config sched) with
  | Some b, Some _ => Broadcaster_StartRecordingToSink b (StopCh sched)
  | _, _ => mret tt
  end;;
  podInformer ← deref (PodInformer (Config sched));
  go_Informer_Run (informers.Informer podInformer) (StopCh sched);;
  informerFactory ← deref (InformerFactory (Config sched));
  InformerFactory_Start informerFactory (StopCh sched).

(** Step 4 of [Run] (lines 87-90): the waiting phase. *)
Definition Run_wait (sched : Scheduler) (ctx : context.Context) : M Proc bool :=
  informerFactory ← deref (InformerFactory (Config sched));
  InformerFactory_WaitForCacheSync tl informerFactory (StopCh sched);;
  WaitForCacheSync tl (context.Done ctx) [].

(** Steps 5 to 7 of [Run] (lines 90-94): what follows the wait. *)
Definition Run_finish (sched : Scheduler) (synced : bool) : M Proc (option error) :=
  if negb synced then mret (Some (fmt.Errorf "failed to wait cache sync"))
  else
    recv tl (StopCh sched);;
    mret None.

(** The handle [sched] with no event broadcaster in its configuration. *)
Definition without_broadcaster (sched : Scheduler) : Scheduler :=
  {| Scheduler_embedded := Scheduler_embedded sched;
     Config := set_Broadcaster None (Config sched);
     StopCh := StopCh sched |}.

(** The call of step 1 of [Run], if it is made. *)
Definition recording_of (sched : Scheduler) : list Event :=
  match Broadcaster (Config sched), EventClient (Config sched) with
  | Some b, Some _ => [StartRecordingToSink b (StopCh sched)]
  | _, _ => []
  end.

(** The start of a run at time [t0]: nothing started, nothing called. *)
Definition boot (t0 : time) : Proc :=
  {| now := t0; startedInformers := []; trace := [] |}.

End run.

End multischeduler.

(** * Concrete inputs *)

Module inputs.

Import schedulerappconfig.

Definition componentConfig : KubeSchedulerConfiguration :=
  {| Profiles := [ {| SchedulerName := "default-scheduler" |} ];
     AlgorithmSource := {| Provider := Some "DefaultProvider" |};
     DisablePreemption := false;
     PercentageOfNodesToScore := 0;
     BindTimeoutSeconds := 600;
     PodMaxBackoffSeconds := 10;
     PodInitialBackoffSeconds := 1;
     Extenders := [] |}.

Definition pods : cache.SharedIndexInformer := {| cache.HasSynced := "pods" |}.
Definition nodes : cache.SharedIndexInformer := {| cache.HasSynced := "nodes" |}.

(** A complete configuration whose caller supplied its own broadcaster. *)
Definition complete : Config :=
  {| ComponentConfig := componentConfig;
     Client := Some 1;
     InformerFactory := Some {| informers.registered := [nodes] |};
     PodInformer := Some {| informers.Informer := pods |};
     CoreBroadcaster := Some 7;
     EventClient := Some 3;
     Broadcaster := Some (events.Supplied 9) |}.

(** The zero value of [Config]: every interface is nil. *)
Definition zero : Config :=
  {| ComponentConfig := componentConfig;
     Client := None; InformerFactory := None; PodInformer := None;
     CoreBroadcaster := None; EventClient := None; Broadcaster := None |}.

(** [complete] without its pod informer. *)
Definition no_pod_informer : Config :=
  {| ComponentConfig := componentConfig;
     Client := Some 1;
     InformerFactory := Some {| informers.registered := [nodes] |};
     PodInformer := None;
     CoreBroadcaster := Some 7;
     EventClient := Some 3;
     Broadcaster := Some (events.Supplied 9) |}.

(** [complete] without its event client. *)
Definition no_event_client : Config :=
  {| ComponentConfig := componentConfig;
     Client := Some 1;
     InformerFactory := Some {| informers.registered := [nodes] |};
     PodInformer := Some {| informers.Informer := pods |};
     CoreBroadcaster := Some 7;
     EventClient := None;
     Broadcaster := None |}.

(** [complete] without its legacy broadcaster. *)
Definition no_core_broadcaster : Config :=
  {| ComponentConfig := componentConfig;
     Client := Some 1;
     InformerFactory := Some {| informers.registered := [nodes] |};
     PodInformer := Some {| informers.Informer := pods |};
     CoreBroadcaster := None;
     EventClient := Some 3;
     Broadcaster := Some (events.Supplied 9) |}.

(** A cluster that serves events.k8s.io/v1beta1; construction succeeds. *)
Definition modern : Cluster :=
  {| discovery := λ _ _, None;
     construct := λ _, (Some {| scheduler.core := 1 |}, None) |}.

(** A cluster without the events group; construction succeeds. *)
Definition legacy : Cluster :=
  {| discovery := λ _ _, Some (mkError "the server could not find the requested resource");
     construct := λ _, (Some {| scheduler.core := 1 |}, None) |}.

(** A cluster on which the external constructor fails. *)
Definition broken : Cluster :=
  {| discovery := λ _ _, None;
     construct := λ _, (None, Some (mkError "couldn't create scheduler using provider")) |}.

(** A cluster on which the external constructor returns neither a core nor
    an error. *)
Definition hollow : Cluster :=
  {| discovery := λ _ _, None;
     construct := λ _, (None, None) |}.

(** The shutdown channel and the context of the examples. *)
Definition stop : chan := 0.
Definition ctx : context.Context := {| context.Done := 1 |}.

(** A handle on the complete configuration. *)
Definition handle : multischeduler.Scheduler :=
  {| multischeduler.Scheduler_embedded := Some {| scheduler.core := 1 |};
     multischeduler.Config := complete;
     multischeduler.StopCh := stop |}.

(** Pods synced at 0, nodes at 5, shutdown at 10, the context cancelled
    after that, at 12. *)
Definition clean_run : Timeline :=
  {| closed_at := λ c, if decide (c = stop) then Some 10
                       else if decide (c = context.Done ctx) then Some 12 else None;
     synced_at := λ f, if decide (f = "pods") then Some 0
                       else if decide (f = "nodes") then Some 5 else None |}.

(** No feed ever syncs; shutdown at 2; the context is never cancelled. *)
Definition shutdown_before_sync : Timeline :=
  {| closed_at := λ c, if decide (c = stop) then Some 2 else None;
     synced_at := λ _, None |}.

(** Pods synced at 0, nodes never; the context cancelled at 3; no
    shutdown. *)
Definition cancelled_never_synced : Timeline :=
  {| closed_at := λ c, if decide (c = context.Done ctx) then Some 3 else None;
     synced_at := λ f, if decide (f = "pods") then Some 0 else None |}.

(** The same, with a shutdown at 10. *)
Definition cancelled_then_shutdown : Timeline :=
  {| closed_at := λ c, if decide (c = context.Done ctx) then Some 3
                       else if decide (c = stop) then Some 10 else None;
     synced_at := λ f, if decide (f = "pods") then Some 0 else None |}.

(** The probe made with the client of the examples. *)
Definition probe : Call :=
  ServerResourcesForGroupVersion 1 eventsv1beta1.SchemeGroupVersion_String.

(** The state of a run of [handle] started at 0, once its informers have
    been launched. *)
Definition launched : Proc :=
  {| now := 0;
     startedInformers := [nodes];
     trace := [StartRecordingToSink (events.Supplied 9) stop;
               go_Run pods stop; Start stop; go_Run nodes stop] |}.

End inputs.

(** One step of [≫=]. *)
Lemma bind_unfold {S A B} (m : M S A) (f : A → M S B) (s : S) :
  (m ≫= f) s =
  match m s with
  | Returns a s' => f a s'
  | Blocks s' => Blocks s'
  | Panics s' => Panics s'
  end.
Proof. reflexivity. Qed.

(** * Properties of construction *)

Section construction_properties.
Import schedulerappconfig multischeduler.
Variable k : Cluster.

Local Ltac run_monad :=
  cbv [mbind mret M_mbind M_mret M_bind M_ret deref panic get modify
       call store load Complete New Discovery_ServerResourcesForGroupVersion].

(** [getRecorderFactory], case by case. *)
Lemma getRecorderFactory_cases (cc : CompletedConfig) (s : Frame) :
  getRecorderFactory k cc s =
  match Client (frame_cc s) with
  | None => Panics s
  | Some c =>
      let s1 := {| frame_cc := frame_cc s;
                   calls := calls s ++ [ServerResourcesForGroupVersion c
                                          eventsv1beta1.SchemeGroupVersion_String] |} in
      match discovery k c eventsv1beta1.SchemeGroupVersion_String with
      | None =>
          match EventClient (frame_cc s) with
          | None => Panics s1
          | Some ec =>
              Returns (profile.NewRecorderFactory (Some (sink_broadcaster ec)))
                {| frame_cc := set_Broadcaster (Some (sink_broadcaster ec)) (frame_cc s);
                   calls := calls s1 |}
          end
      | Some _ => Returns (adapter_factory (CoreBroadcaster (frame_cc s))) s1
      end
  end.
Proof.
  unfold getRecorderFactory. run_monad.
  destruct s as [c0 l]; simpl.
  destruct (Client c0) as [c|]; [|reflexivity]. simpl.
  destruct (discovery k c _); [reflexivity|]. simpl.
  destruct (EventClient c0); reflexivity.
Qed.

(** [NewScheduler], case by case. *)
Lemma NewScheduler_cases (ctx : context.Context) (cc : schedulerappconfig.Config) (stopCh : chan) :
  NewScheduler k ctx cc stopCh =
  match Client cc with
  | None => Panics {| frame_cc := cc; calls := [] |}
  | Some c =>
      match discovery k c eventsv1beta1.SchemeGroupVersion_String with
      | None =>
          match EventClient cc with
          | None =>
              Panics {| frame_cc := cc;
                        calls := [ServerResourcesForGroupVersion c
                                    eventsv1beta1.SchemeGroupVersion_String] |}
          | Some ec =>
              NewScheduler_end k (set_Broadcaster (Some (sink_broadcaster ec)) cc)
                (profile.NewRecorderFactory (Some (sink_broadcaster ec))) stopCh c
          end
      | Some _ => NewScheduler_end k cc (adapter_factory (CoreBroadcaster cc)) stopCh c
      end
  end.
Proof.
  unfold NewScheduler.
  change (mbind ?f Complete) with (f address_of_cc).
  cbv beta. unfold mbind at 1, M_mbind at 1, M_bind at 1.
  rewrite getRecorderFactory_cases. simpl.
  destruct (Client cc) as [c|]; [|reflexivity].
  destruct (discovery k c _) eqn:Hd; simpl.
  - unfold NewScheduler_end. run_monad. simpl.
    destruct (construct k _) as [sched [err|]]; reflexivity.
  - destruct (EventClient cc) as [ec|]; [|reflexivity].
    unfold NewScheduler_end. run_monad. simpl.
    destruct (construct k _) as [sched [err|]]; reflexivity.
Qed.

(** If a call of [scheduler.New] is among the calls of [NewScheduler], it is
    the only one, it follows the one probe, and its outcome decides that of
    [NewScheduler]. *)
Lemma NewScheduler_call (ctx : context.Context) (cc : schedulerappconfig.Config) (stopCh : chan)
    (args : scheduler.NewArgs) :
  scheduler_New args ∈ calls (final (NewScheduler k ctx cc stopCh)) →
  ∃ cc' rf c,
    Client cc = Some c ∧
    args = New_args cc' rf stopCh ∧
    NewScheduler k ctx cc stopCh = NewScheduler_end k cc' rf stopCh c ∧
    calls (final (NewScheduler k ctx cc stopCh)) =
      [ServerResourcesForGroupVersion c eventsv1beta1.SchemeGroupVersion_String;
       scheduler_New args] ∧
    (cc' = cc ∨ ∃ ec, EventClient cc = Some ec ∧
                      cc' = set_Broadcaster (Some (sink_broadcaster ec)) cc).
Proof.
  rewrite NewScheduler_cases.
  assert (Hend : ∀ cc' rf c,
    Client cc = Some c →
    (cc' = cc ∨ ∃ ec, EventClient cc = Some ec ∧
                      cc' = set_Broadcaster (Some (sink_broadcaster ec)) cc) →
    scheduler_New args ∈ calls (final (NewScheduler_end k cc' rf stopCh c)) →
    ∃ cc'0 rf0 c0, Client cc = Some c0 ∧ args = New_args cc'0 rf0 stopCh ∧
      NewScheduler_end k cc' rf stopCh c = NewScheduler_end k cc'0 rf0 stopCh c0 ∧
      calls (final (NewScheduler_end k cc' rf stopCh c)) =
        [ServerResourcesForGroupVersion c0 eventsv1beta1.SchemeGroupVersion_String;
         scheduler_New args] ∧
      (cc'0 = cc ∨ ∃ ec, EventClient cc = Some ec ∧
                         cc'0 = set_Broadcaster (Some (sink_broadcaster ec)) cc)).
  { intros cc' rf c Hc Hcc' Hin. exists cc', rf, c.
    assert (args = New_args cc' rf stopCh) as ->.
    { unfold NewScheduler_end in Hin.
      destruct (construct k _) as [sched [err|]]; simpl in Hin;
        apply elem_of_cons in Hin as [Hin|Hin]; try discriminate;
        apply list_elem_of_singleton in Hin; congruence. }
    split_and!; try done.
    unfold NewScheduler_end. by destruct (construct k _) as [sched [err|]]. }
  destruct (Client cc) as [c|] eqn:Hc; simpl.
  - destruct (discovery k c _).
    + apply Hend; auto.
    + destruct (EventClient cc) as [ec|] eqn:Hec; simpl.
      * apply Hend; eauto.
      * intros Hin. apply list_elem_of_singleton in Hin. discriminate.
  - intros Hin. by apply elem_of_nil in Hin.
Qed.

(** ** C7: a failure of the external constructor is returned as it is *)

(** C7.  Whenever the call of [scheduler.New] made by [NewScheduler] fails
    with [err], [NewScheduler] returns no handle and the very value [err];
    the constructor has been called once, after the one probe, and is not
    called again. *)
Theorem construction_error_unchanged (ctx : context.Context) (cc : schedulerappconfig.Config)
    (stopCh : chan) (args : scheduler.NewArgs) (err : error) :
  scheduler_New args ∈ calls (final (NewScheduler k ctx cc stopCh)) →
  (construct k args).2 = Some err →
  returned (NewScheduler k ctx cc stopCh) = Some (None, Some err) ∧
  ∃ c, calls (final (NewScheduler k ctx cc stopCh)) =
         [ServerResourcesForGroupVersion c eventsv1beta1.SchemeGroupVersion_String;
          scheduler_New args].
Proof.
  intros Hin Herr.
  destruct (NewScheduler_call _ _ _ _ Hin) as (cc' & rf & c & _ & -> & Heq & Hcalls & _).
  split; [|by exists c].
  rewrite Heq. unfold NewScheduler_end.
  destruct (construct k _) as [sched [e|]]; simpl in *; congruence.
Qed.

(** ** C10: the out-of-tree registry is empty *)

(** C10.  Every call of [scheduler.New] made by [NewScheduler] carries one
    out-of-tree registry, the one made at line 48, and no plugin is
    registered in it. *)
Theorem out_of_tree_registry_empty (ctx : context.Context) (cc : schedulerappconfig.Config)
    (stopCh : chan) (args : scheduler.NewArgs) :
  scheduler_New args ∈ calls (final (NewScheduler k ctx cc stopCh)) →
  ∃ registry : framework.Registry,
    scheduler.frameworkOutOfTreeRegistry (scheduler.opts args) = Some registry ∧
    (∀ r, scheduler.WithFrameworkOutOfTreeRegistry r ∈ scheduler.opts args → r = registry) ∧
    (∀ name, registry !! name = None) ∧
    size registry = 0.
Proof.
  intros Hin.
  destruct (NewScheduler_call _ _ _ _ Hin) as (cc' & rf & c & _ & -> & _).
  exists framework.make_Registry. split_and!.
  - reflexivity.
  - intros r Hr. simpl in Hr.
    repeat (apply elem_of_cons in Hr as [Hr|Hr]; [try discriminate; congruence|]).
    by apply elem_of_nil in Hr.
  - intros name. apply lookup_empty.
  - apply map_size_empty.
Qed.

(** ** C2: construction validates nothing *)

(** C2, as amended.  [NewScheduler] rejects no configuration.  With a nil
    [Client] it panics before any call leaves the package.  With a [Client],
    unless the probe succeeds while [EventClient] is nil (a panic as well), it
    calls [scheduler.New] once and hands it [Client], [InformerFactory] and
    [PodInformer] as they are, nil or not.  Every error it returns is the
    error [scheduler.New] returned. *)
Theorem no_configuration_is_rejected (ctx : context.Context) (cc : schedulerappconfig.Config)
    (stopCh : chan) :
  (Client cc = None →
     NewScheduler k ctx cc stopCh = Panics {| frame_cc := cc; calls := [] |}) ∧
  (∀ c, Client cc = Some c →
     is_Some (discovery k c eventsv1beta1.SchemeGroupVersion_String) ∨ is_Some (EventClient cc) →
     ∃ args, calls (final (NewScheduler k ctx cc stopCh)) =
               [ServerResourcesForGroupVersion c eventsv1beta1.SchemeGroupVersion_String;
                scheduler_New args] ∧
             scheduler.client args = Client cc ∧
             scheduler.informerFactory args = InformerFactory cc ∧
             scheduler.podInformer args = PodInformer cc) ∧
  (∀ err, returned (NewScheduler k ctx cc stopCh) = Some (None, Some err) →
     ∃ args, scheduler_New args ∈ calls (final (NewScheduler k ctx cc stopCh)) ∧
             (construct k args).2 = Some err).
Proof.
  rewrite NewScheduler_cases. split_and!.
  - by intros ->.
  - intros c Hc Hok. rewrite Hc.
    destruct (discovery k c _) as [e|].
    + eexists. unfold NewScheduler_end.
      destruct (construct k _) as [sched [err|]]; simpl;
        (split_and!; [reflexivity|simpl; congruence..]).
    + destruct Hok as [[? [=]]|[ec Hec]]. rewrite Hec.
      eexists. unfold NewScheduler_end.
      destruct (construct k _) as [sched [err|]]; simpl;
        (split_and!; [reflexivity|simpl; congruence..]).
  - intros err.
    assert (Hend : ∀ cc' rf c,
      returned (NewScheduler_end k cc' rf stopCh c) = Some (None, Some err) →
      ∃ args, scheduler_New args ∈ calls (final (NewScheduler_end k cc' rf stopCh c)) ∧
              (construct k args).2 = Some err).
    { intros cc' rf c. unfold NewScheduler_end.
      destruct (construct k _) as [sched [e|]] eqn:Hk; simpl; intros [=]. subst e.
      eexists. split; [apply list_elem_of_further, list_elem_of_here|].
      by rewrite Hk. }
    destruct (Client cc) as [c|]; [|discriminate].
    destruct (discovery k c _); [apply Hend|].
    destruct (EventClient cc); [apply Hend|discriminate].
Qed.

(** ** C5: what construction changes in the configuration *)

(** C5, as amended.  Of the seven fields of the configuration that
    generic.go reads or writes, the variable [cc] of [NewScheduler], which
    the handle copies, ends with six as they were handed over
    ([ComponentConfig], [Client], [InformerFactory], [PodInformer],
    [CoreBroadcaster], [EventClient]), and with [Broadcaster] replaced by a
    new broadcaster on the sink of the event client when there is a
    [Client], the probe succeeds and there is an [EventClient]; otherwise
    [Broadcaster] is unchanged as well.  A handle that is returned carries
    that configuration.  The fields that the library's [cc.Complete()] fills
    in are not among the seven. *)
Theorem only_Broadcaster_is_overwritten (ctx : context.Context) (cc : schedulerappconfig.Config)
    (stopCh : chan) :
  let cc' := frame_cc (final (NewScheduler k ctx cc stopCh)) in
  ComponentConfig cc' = ComponentConfig cc ∧
  Client cc' = Client cc ∧
  InformerFactory cc' = InformerFactory cc ∧
  PodInformer cc' = PodInformer cc ∧
  CoreBroadcaster cc' = CoreBroadcaster cc ∧
  EventClient cc' = EventClient cc ∧
  Broadcaster cc' =
    match Client cc, EventClient cc with
    | Some c, Some ec =>
        match discovery k c eventsv1beta1.SchemeGroupVersion_String with
        | None => Some (events.NewBroadcaster
                          {| events.Interface := events.Events ec "" |})
        | Some _ => Broadcaster cc
        end
    | _, _ => Broadcaster cc
    end ∧
  (∀ sched, returned (NewScheduler k ctx cc stopCh) = Some (Some sched, None) →
     Config sched = cc').
Proof.
  rewrite NewScheduler_cases.
  assert (Hend : ∀ cc' rf c,
    frame_cc (final (NewScheduler_end k cc' rf stopCh c)) = cc' ∧
    ∀ sched, returned (NewScheduler_end k cc' rf stopCh c) = Some (Some sched, None) →
             Config sched = cc').
  { intros cc' rf c. unfold NewScheduler_end.
    destruct (construct k _) as [sched [e|]]; simpl; split; try done.
    by intros ? [= <-]. }
  destruct (Client cc) as [c|] eqn:Hc; simpl; [|by split_and!].
  destruct (discovery k c _) as [e|]; simpl.
  - destruct (Hend cc (adapter_factory (CoreBroadcaster cc)) c) as [-> Hh].
    destruct (EventClient cc) eqn:Hec; by split_and!.
  - destruct (EventClient cc) as [ec|] eqn:Hec; simpl; [|by split_and!].
    destruct (Hend (set_Broadcaster (Some (sink_broadcaster ec)) cc)
                (profile.NewRecorderFactory (Some (sink_broadcaster ec))) c) as [-> Hh].
    by split_and!.
Qed.

(** ** The choice of the recorder factory *)

(** X11.  For every configuration with a [Client],
    [getRecorderFactory] probes discovery once, for events.k8s.io/v1beta1.
    If the probe succeeds and there is an [EventClient], it returns the
    factory of a new broadcaster on the sink of that client, whose recorders
    are that broadcaster's, and stores the broadcaster in the configuration.
    If the probe fails, it returns, leaving the configuration as it is, a
    factory whose recorders are adapters around the recorders of
    [CoreBroadcaster]; [NewScheduler] then goes on to [scheduler.New], and
    returns a handle whenever that call reports no error. *)
Theorem recorder_factory_by_probe (cc : CompletedConfig) (s : Frame) (c : Client_Interface) :
  Client (frame_cc s) = Some c →
  let probe := ServerResourcesForGroupVersion c eventsv1beta1.SchemeGroupVersion_String in
  (discovery k c eventsv1beta1.SchemeGroupVersion_String = None →
   ∀ ec, EventClient (frame_cc s) = Some ec →
     let b := events.NewBroadcaster {| events.Interface := events.Events ec "" |} in
     ∃ rf, getRecorderFactory k cc s =
             Returns rf {| frame_cc := set_Broadcaster (Some b) (frame_cc s);
                           calls := calls s ++ [probe] |} ∧
           ∀ name, rf name = Some (events.NewRecorder b scheme.Scheme name)) ∧
  (∀ e, discovery k c eventsv1beta1.SchemeGroupVersion_String = Some e →
     (∃ rf, getRecorderFactory k cc s =
              Returns rf {| frame_cc := frame_cc s; calls := calls s ++ [probe] |} ∧
            ∀ name, rf name =
              (b ← CoreBroadcaster (frame_cc s);
               Some (events.NewEventRecorderAdapter
                       (record.NewRecorder b scheme.Scheme {| v1.Component := name |})))) ∧
     ∀ ctx stopCh, ∃ args,
       calls (final (NewScheduler k ctx (frame_cc s) stopCh)) = [probe; scheduler_New args] ∧
       ((construct k args).2 = None →
        returned (NewScheduler k ctx (frame_cc s) stopCh) =
          Some (Some {| Scheduler_embedded := (construct k args).1;
                        Config := frame_cc s;
                        StopCh := stopCh |}, None))).
Proof.
  intros Hc probe. split.
  - intros Hd ec Hec b. rewrite getRecorderFactory_cases, Hc, Hd, Hec.
    eexists; split; [reflexivity|]. done.
  - intros e Hd. split.
    + rewrite getRecorderFactory_cases, Hc, Hd. simpl.
      eexists; split; [reflexivity|].
      intros name. unfold adapter_factory. by destruct (CoreBroadcaster _).
    + intros ctx stopCh. rewrite NewScheduler_cases, Hc, Hd.
      eexists. unfold NewScheduler_end.
      destruct (construct k _) as [sched [err|]] eqn:Hk; simpl;
        (split; [reflexivity|]); rewrite Hk; simpl; [discriminate|done].
Qed.

End construction_properties.

(** * Properties of a run *)

Section run_properties.
Import schedulerappconfig multischeduler.
Variable tl : Timeline.

Local Ltac run_proc :=
  cbv [mbind mret M_mbind M_mret M_bind M_ret deref panic get modify
       emit park_until mark_started recv
       Broadcaster_StartRecordingToSink go_Informer_Run].

Lemma closed_by_Some (c : chan) (t T : time) :
  closed_at tl c = Some t → closed_by tl T c ↔ t ≤ T.
Proof.
  intros Hc. unfold closed_by. split.
  - intros (t' & Ht' & Hle). congruence.
  - eauto.
Qed.

Lemma closed_by_None (c : chan) (T : time) :
  closed_at tl c = None → ¬ closed_by tl T c.
Proof. intros Hc (t & Ht & _). congruence. Qed.

Lemma closed_by_mono (c : chan) (T T' : time) :
  T ≤ T' → closed_by tl T c → closed_by tl T' c.
Proof. intros Hle (t & Ht & Hle'). exists t. split; [done|lia]. Qed.

Lemma synced_by_mono (f : feed) (T T' : time) :
  T ≤ T' → synced_by tl T f → synced_by tl T' f.
Proof. intros Hle (t & Ht & Hle'). exists t. split; [done|lia]. Qed.

Lemma gate_open_mono (stopCh : chan) (fs : list feed) (T T' : time) :
  T ≤ T' → gate_open tl stopCh fs T → gate_open tl stopCh fs T'.
Proof.
  intros Hle [Hs|Hc]; [left|right; exact (closed_by_mono _ _ _ Hle Hc)].
  eapply Forall_impl; [exact Hs|]. intros f. by apply synced_by_mono.
Qed.

(** The first time at which a property holds is unique. *)
Lemma earliest_unique (P : time → Prop) (from T1 T2 : time) :
  earliest P from T1 → earliest P from T2 → T1 = T2.
Proof.
  intros (Hle1 & HP1 & Hmin1) (Hle2 & HP2 & Hmin2).
  destruct (decide (T1 < T2)) as [Hlt|Hge].
  - by destruct (Hmin2 T1).
  - destruct (decide (T2 < T1)) as [Hlt|Hge']; [by destruct (Hmin1 T2)|lia].
Qed.

Lemma populated_Some (fs : list cache.InformerSynced) (p T : time) :
  populated tl fs = Some p → Forall (synced_by tl T) fs ↔ p ≤ T.
Proof.
  revert p. induction fs as [|f fs IH]; intros p; simpl.
  - intros [= <-]. split; [lia|constructor].
  - destruct (synced_at tl f) as [t|] eqn:Hf; simpl; [|discriminate].
    destruct (populated tl fs) as [p'|]; simpl; [|discriminate].
    intros [= <-]. rewrite Forall_cons, (IH p' eq_refl).
    unfold synced_by. rewrite Hf. split.
    + intros [(t' & [= <-] & Hle) Hle']. lia.
    + intros Hle. split; [exists t; split; [done|lia]|lia].
Qed.

Lemma populated_None (fs : list cache.InformerSynced) (T : time) :
  populated tl fs = None → ¬ Forall (synced_by tl T) fs.
Proof.
  induction fs as [|f fs IH]; simpl; [discriminate|].
  rewrite Forall_cons.
  destruct (synced_at tl f) as [t|] eqn:Hf; simpl.
  - destruct (populated tl fs) as [p'|]; simpl; [discriminate|].
    intros _ [_ Hfs]. by apply IH.
  - intros _ [(t & Ht & _) _]. unfold cache.InformerSynced in *. congruence.
Qed.

(** What [cache.WaitForCacheSync] does: it returns at the first time at
    which its gate is open, with true exactly when the feeds are synced
    then; it blocks for ever when the gate never opens; it never panics. *)
Lemma WaitForCacheSync_spec (stopCh : chan) (fs : list cache.InformerSynced) (s : Proc) :
  match WaitForCacheSync tl stopCh fs s with
  | Returns b s' =>
      earliest (gate_open tl stopCh fs) (now s) (now s') ∧
      (b = true ↔ Forall (synced_by tl (now s')) fs) ∧
      startedInformers s' = startedInformers s ∧
      trace s' = trace s ++ [cache_WaitForCacheSync stopCh fs]
  | Blocks s' =>
      (∀ T, now s ≤ T → ¬ gate_open tl stopCh fs T) ∧
      now s' = now s ∧
      startedInformers s' = startedInformers s ∧
      trace s' = trace s ++ [cache_WaitForCacheSync stopCh fs]
  | Panics _ => False
  end.
Proof.
  unfold WaitForCacheSync, earliest, gate_open. run_proc. simpl.
  destruct (populated tl fs) as [p|] eqn:Hp;
    destruct (closed_at tl stopCh) as [c|] eqn:Hc; [case_decide|..]; simpl;
    repeat match goal with
      | |- _ ∧ _ => split
      | |- _ ↔ _ => split
      | |- ∀ _, _ => intros ?
      | |- ¬ _ => intros ?
      | |- _ → _ => intros ?
      end;
    repeat match goal with
      | H : _ ∨ _ |- _ => destruct H
      | H : Forall _ fs |- _ => first
          [ rewrite (populated_Some _ _ _ Hp) in H
          | by apply (populated_None _ _ Hp) in H ]
      | H : closed_by _ _ _ |- _ => first
          [ rewrite (closed_by_Some _ _ _ Hc) in H
          | by apply (closed_by_None _ _ Hc) in H ]
      end;
    try done; try lia;
    try (left; apply (populated_Some _ _ _ Hp); lia);
    try (right; apply (closed_by_Some _ _ _ Hc); lia);
    try (apply (populated_Some _ _ _ Hp); lia).
Qed.

(** The first time at which a gate on [f :: fs] opens, from the first
    times for [f] and then for [fs]. *)
Lemma earliest_gate_cons (stopCh : chan) (f : feed) (fs : list feed) (t0 t1 t2 : time) :
  earliest (gate_open tl stopCh [f]) t0 t1 →
  earliest (gate_open tl stopCh fs) t1 t2 →
  earliest (gate_open tl stopCh (f :: fs)) t0 t2.
Proof.
  intros (Hle1 & Hg1 & Hmin1) (Hle2 & Hg2 & Hmin2). split_and!; [lia| |].
  - destruct Hg2 as [Hfs|Hc]; [|by right].
    destruct Hg1 as [Hf|Hc]; [|right; exact (closed_by_mono _ _ _ Hle2 Hc)].
    left. constructor; [|done].
    rewrite Forall_singleton in Hf. exact (synced_by_mono _ _ _ Hle2 Hf).
  - intros T Hle Hlt Hg.
    assert (gate_open tl stopCh [f] T ∧ gate_open tl stopCh fs T) as [Hgf Hgfs].
    { destruct Hg as [Hall|Hc]; [|split; by right].
      apply Forall_cons in Hall as [Hf Hfs]. split; left; [by rewrite Forall_singleton|done]. }
    destruct (decide (T < t1)) as [Hlt1|Hge1].
    + by apply (Hmin1 T).
    + apply (Hmin2 T); [lia|done|done].
Qed.

Lemma gate_never_cons (stopCh : chan) (f : feed) (fs : list feed) (t0 t1 : time) :
  earliest (gate_open tl stopCh [f]) t0 t1 →
  (∀ T, t1 ≤ T → ¬ gate_open tl stopCh fs T) →
  ∀ T, t0 ≤ T → ¬ gate_open tl stopCh (f :: fs) T.
Proof.
  intros (Hle1 & Hg1 & Hmin1) Hnever T Hle Hg.
  assert (gate_open tl stopCh [f] T ∧ gate_open tl stopCh fs T) as [Hgf Hgfs].
  { destruct Hg as [Hall|Hc]; [|split; by right].
    apply Forall_cons in Hall as [Hf Hfs]. split; left; [by rewrite Forall_singleton|done]. }
  destruct (decide (T < t1)) as [Hlt1|Hge1].
  - by apply (Hmin1 T).
  - apply (Hnever T); [lia|done].
Qed.

(** What the factory's wait on the informers [infs] does. *)
Lemma wait_each_spec (stopCh : chan) (infs : list cache.SharedIndexInformer) (s : Proc) :
  ∃ evs, trace (final (wait_each tl infs stopCh s)) = trace s ++ evs ∧
         Forall (λ e, step_of e = waiting) evs ∧
         startedInformers (final (wait_each tl infs stopCh s)) = startedInformers s ∧
         match wait_each tl infs stopCh s with
         | Returns _ s' =>
             earliest (gate_open tl stopCh (cache.HasSynced <$> infs)) (now s) (now s')
         | Blocks _ =>
             ∀ T, now s ≤ T → ¬ gate_open tl stopCh (cache.HasSynced <$> infs) T
         | Panics _ => False
         end.
Proof.
  revert s. induction infs as [|i infs IH]; intros s; simpl.
  - exists []. rewrite app_nil_r. split_and!; try done.
    split_and!; [lia|by left|lia].
  - rewrite bind_unfold.
    pose proof (WaitForCacheSync_spec stopCh [cache.HasSynced i] s) as Hw.
    destruct (WaitForCacheSync tl stopCh [cache.HasSynced i] s) as [b s1|s1|s1];
      [|destruct Hw as (Hnever & _ & Hst & Htr)|done].
    + destruct Hw as (Hfirst & _ & Hst & Htr).
      rewrite bind_unfold.
      destruct (IH s1) as (evs & Htr' & Hevs & Hst' & Hrest).
      exists (cache_WaitForCacheSync stopCh [cache.HasSynced i] :: evs).
      destruct (wait_each tl infs stopCh s1) as [res s2|s2|s2]; simpl in *; [| |done].
      * rewrite Htr', Htr, <-app_assoc. split_and!; [done|by constructor|congruence|].
        by eapply earliest_gate_cons.
      * rewrite Htr', Htr, <-app_assoc. split_and!; [done|by constructor|congruence|].
        by eapply gate_never_cons.
    + simpl. exists [cache_WaitForCacheSync stopCh [cache.HasSynced i]].
      split_and!; [done|by repeat constructor|done|].
      intros T Hle Hg. apply (Hnever T Hle).
      destruct Hg as [Hall|Hc]; [left|by right].
      apply Forall_cons in Hall as [Hf _]. by rewrite Forall_singleton.
Qed.

(** What the factory's start of the informers [infs] does. *)
Lemma start_each_spec (stopCh : chan) (infs : list cache.SharedIndexInformer) (s : Proc) :
  ∃ new,
    start_each infs stopCh s =
      Returns tt {| now := now s;
                    startedInformers := startedInformers s ++ new;
                    trace := trace s ++ ((λ i, go_Run i stopCh) <$> new) |} ∧
    (∀ i, i ∈ infs → i ∈ startedInformers s ++ new) ∧
    (∀ i, i ∈ infs → i ∈ startedInformers s ∨ i ∈ new).
Proof.
  revert s. induction infs as [|i infs IH]; intros s; simpl.
  - exists []. simpl. rewrite !app_nil_r. destruct s; split_and!; [done|..];
      intros i Hi; by apply elem_of_nil in Hi.
  - run_proc. simpl. destruct (decide (i ∈ startedInformers s)) as [Hin|Hnin]; simpl.
    + replace {| now := now s; startedInformers := startedInformers s; trace := trace s |}
        with s by by destruct s.
      destruct (IH s) as (new & Heq & Hall & Hor). exists new.
      split_and!; [done|..]; intros j [->|Hj]%elem_of_cons; auto.
      apply elem_of_app. by left.
    + match goal with |- context [start_each infs stopCh ?s1] =>
        destruct (IH s1) as (new & Heq & Hall & Hor) end.
      simpl in *. exists (i :: new). rewrite Heq.
      rewrite <-!app_assoc. simpl. split_and!; [done|..].
      * intros j [->|Hj]%elem_of_cons.
        -- apply elem_of_app. right. by left.
        -- specialize (Hall j Hj). by rewrite <-app_assoc in Hall.
      * intros j [->|Hj]%elem_of_cons; [right; by left|].
        destruct (Hor j Hj) as [[?|?%list_elem_of_singleton]%elem_of_app|?]; subst;
          [by left|right; by left|right; by right].
Qed.


(** Steps 1 to 3 of [Run]: they never block; they panic on a nil pod
    informer or a nil informer factory; otherwise every informer registered
    in the factory is started when they return. *)
Lemma Run_launch_spec (sched : Scheduler) (s : Proc) :
  match PodInformer (Config sched), InformerFactory (Config sched) with
  | Some pi, Some fac =>
      ∃ new,
        Run_launch sched s =
          Returns tt
            {| now := now s;
               startedInformers := startedInformers s ++ new;
               trace := trace s ++ recording_of sched ++
                        go_Run (informers.Informer pi) (StopCh sched) ::
                        Start (StopCh sched) ::
                        ((λ i, go_Run i (StopCh sched)) <$> new) |} ∧
        (∀ i, i ∈ informers.registered fac → i ∈ startedInformers s ++ new) ∧
        (∀ i, i ∈ informers.registered fac → i ∈ startedInformers s ∨ i ∈ new)
  | Some pi, None =>
      Run_launch sched s =
        Panics {| now := now s; startedInformers := startedInformers s;
                  trace := trace s ++ recording_of sched ++
                           [go_Run (informers.Informer pi) (StopCh sched)] |}
  | None, _ =>
      Run_launch sched s =
        Panics {| now := now s; startedInformers := startedInformers s;
                  trace := trace s ++ recording_of sched |}
  end.
Proof.
  unfold Run_launch, recording_of, InformerFactory_Start. destruct s as [n st tr].
  destruct (PodInformer (Config sched)) as [pi|];
    [destruct (InformerFactory (Config sched)) as [fac|]|];
    destruct (Broadcaster (Config sched)) as [b|];
    try destruct (EventClient (Config sched)) as [ec|];
    run_proc; simpl; rewrite ?app_nil_r, <-?app_assoc; simpl; try done;
    match goal with |- context [start_each ?l ?c ?s1] =>
      destruct (start_each_spec c l s1) as (new & -> & Hall & Hor) end;
    simpl in *; exists new; rewrite <-?app_assoc; simpl; done.
Qed.

(** Step 4 of [Run]: the wait ends at the first time at which the feeds the
    factory has started are all synced or the stop channel is closed; the
    second wait, which tracks no feed, adds nothing to it. *)
Lemma Run_wait_spec (sched : Scheduler) (ctx : context.Context) (s : Proc)
    (fac : informers.SharedInformerFactory) :
  InformerFactory (Config sched) = Some fac →
  let tracked :=
    cache.HasSynced <$> filter (λ i, i ∈ startedInformers s) (informers.registered fac) in
  ∃ evs,
    trace (final (Run_wait tl sched ctx s)) =
      trace s ++ Factory_WaitForCacheSync (StopCh sched) :: evs ∧
    Forall (λ e, step_of e = waiting) evs ∧
    match Run_wait tl sched ctx s with
    | Returns synced s' =>
        synced = true ∧
        earliest (gate_open tl (StopCh sched) tracked) (now s) (now s')
    | Blocks _ => ∀ T, now s ≤ T → ¬ gate_open tl (StopCh sched) tracked T
    | Panics _ => False
    end.
Proof.
  intros Hfac tracked. unfold Run_wait, InformerFactory_WaitForCacheSync.
  rewrite Hfac. simpl. rewrite bind_unfold. simpl. rewrite bind_unfold.
  rewrite (bind_unfold (emit _)). simpl. rewrite bind_unfold. simpl.
  match goal with |- context [wait_each tl ?l ?c ?s0] =>
    destruct (wait_each_spec c l s0) as (evs & Htr & Hevs & _ & Hw);
    destruct (wait_each tl l c s0) as [res s1|s1|s1] end; simpl in *; [| |done].
  - pose proof (WaitForCacheSync_spec (context.Done ctx) [] s1) as Hw2.
    destruct (WaitForCacheSync tl (context.Done ctx) [] s1) as [b s2|s2|s2]; [| |done].
    + destruct Hw2 as ((Hle & _ & Hmin) & Hb & _ & Htr2).
      exists (evs ++ [cache_WaitForCacheSync (context.Done ctx) []]). simpl.
      rewrite Htr2, Htr.
      assert (now s2 = now s1) as Hnow.
      { destruct (decide (now s1 < now s2)) as [Hlt|?]; [|lia].
        destruct (Hmin (now s1)); [lia|done|]. left. constructor. }
      split_and!; [by rewrite <-!app_assoc| |apply Hb; constructor|by rewrite Hnow].
      apply Forall_app. split; [done|]. by repeat constructor.
    + destruct Hw2 as (Hnever & _). destruct (Hnever (now s1)); [lia|].
      left. constructor.
  - exists evs. rewrite Htr, <-app_assoc. done.
Qed.

(** Steps 5 to 7 of [Run] once the wait has reported true. *)
Lemma Run_finish_spec (sched : Scheduler) (s : Proc) :
  Run_finish tl sched true s =
  let s' := {| now := now s; startedInformers := startedInformers s;
               trace := trace s ++ [receive (StopCh sched)] |} in
  match closed_at tl (StopCh sched) with
  | Some c => Returns None {| now := now s `max` c; startedInformers := startedInformers s;
                              trace := trace s' |}
  | None => Blocks s'
  end.
Proof.
  unfold Run_finish. simpl. run_proc. simpl.
  by destruct (closed_at tl (StopCh sched)).
Qed.

(** [Run] is its three phases in sequence. *)
Lemma Run_phases (sched : Scheduler) (ctx : context.Context) (s : Proc) :
  Run tl sched ctx s =
  (Run_launch sched;; synced ← Run_wait tl sched ctx; Run_finish tl sched synced) s.
Proof.
  unfold Run, Run_launch, Run_wait, Run_finish.
  rewrite !bind_unfold.
  destruct (match Broadcaster (Config sched) with _ => _ end s) as [[] s0|s0|s0]; [|done..].
  rewrite !bind_unfold.
  destruct (PodInformer (Config sched)) as [pi|]; [|reflexivity].
  cbv [deref mret M_mret M_ret]. rewrite !bind_unfold.
  destruct (go_Informer_Run _ _ s0) as [[] s1|s1|s1]; [|done..].
  rewrite !bind_unfold.
  destruct (InformerFactory (Config sched)) as [fac|]; [|reflexivity].
  rewrite !bind_unfold.
  destruct (InformerFactory_Start fac (StopCh sched) s1) as [[] s2|s2|s2]; [|done..].
  rewrite !bind_unfold.
  destruct (InformerFactory_WaitForCacheSync tl fac (StopCh sched) s2) as [r s3|s3|s3];
    [|done..].
  reflexivity.
Qed.

(** The outcome of [Run] on a handle with a pod informer and an informer
    factory: nil when the stop channel is closed, at that moment; no return
    at all when it never is. *)
Lemma Run_outcome (sched : Scheduler) (ctx : context.Context) (s : Proc)
    (pi : informers.PodInformer) (fac : informers.SharedInformerFactory) :
  PodInformer (Config sched) = Some pi →
  InformerFactory (Config sched) = Some fac →
  match closed_at tl (StopCh sched) with
  | Some c => ∃ s', Run tl sched ctx s = Returns None s' ∧ now s' = now s `max` c
  | None => ∃ s', Run tl sched ctx s = Blocks s'
  end.
Proof.
  intros Hpi Hfac. rewrite Run_phases, bind_unfold.
  pose proof (Run_launch_spec sched s) as Hl. rewrite Hpi, Hfac in Hl.
  destruct Hl as (new & -> & _). rewrite bind_unfold.
  match goal with |- context [Run_wait tl sched ctx ?s1] =>
    destruct (Run_wait_spec sched ctx s1 fac Hfac) as (evs & _ & _ & Hw);
    destruct (Run_wait tl sched ctx s1) as [synced s2|s2|s2] end; simpl in *; [| |done].
  - destruct Hw as (-> & Hle & _ & Hmin). rewrite Run_finish_spec.
    destruct (closed_at tl (StopCh sched)) as [c|] eqn:Hc; simpl; [|eauto].
    eexists; split; [done|]. simpl.
    destruct (decide (now s `max` c < now s2)) as [Hlt|?]; [|lia].
    destruct (Hmin (now s `max` c)); [lia|done|].
    right. apply (closed_by_Some _ _ _ Hc). lia.
  - destruct (closed_at tl (StopCh sched)) as [c|] eqn:Hc; [|eauto].
    destruct (Hw (now s `max` c)); [lia|].
    right. apply (closed_by_Some _ _ _ Hc). lia.
Qed.

(** ** The trace is write-only *)

Lemma framed_ret {A} (a : A) : framed (mret a).
Proof. by intros p n st tr. Qed.

Lemma framed_bind {A B} (m : M Proc A) (f : A → M Proc B) :
  framed m → (∀ a, framed (f a)) → framed (m ≫= f).
Proof.
  intros Hm Hf p n st tr. rewrite !bind_unfold, Hm.
  destruct (m _) as [a [n' st' tr']|s'|s']; simpl; [|done..].
  apply Hf.
Qed.

Lemma framed_get {A} (k : Proc → M Proc A) :
  (∀ s, framed (k s)) → (∀ p s, k (prefix_trace p s) = k s) → framed (get ≫= k).
Proof.
  intros Hk Hind p n st tr. rewrite !bind_unfold. simpl.
  pose proof (Hind p {| now := n; startedInformers := st; trace := tr |}) as E.
  unfold prefix_trace in E. simpl in E. rewrite E. apply Hk.
Qed.

Lemma framed_emit (e : Event) : framed (emit e).
Proof. intros p n st tr. unfold emit, modify, prefix_trace. simpl. by rewrite app_assoc. Qed.

Lemma framed_park_until (t : time) : framed (park_until t).
Proof. by intros p n st tr. Qed.

Lemma framed_mark_started (i : cache.SharedIndexInformer) : framed (mark_started i).
Proof. by intros p n st tr. Qed.

Lemma framed_Blocks {A} : framed (Blocks : M Proc A).
Proof. by intros p n st tr. Qed.

Lemma framed_deref {A} (x : option A) : framed (deref x).
Proof. destruct x; by intros p n st tr. Qed.

Local Ltac framed :=
  repeat lazymatch goal with
    | |- framed (mret _) => apply framed_ret
    | |- framed (get ≫= _) => apply framed_get; [intros ?|by intros ??]
    | |- framed (_ ≫= _) => apply framed_bind; [|intros ?]
    | |- framed (emit _) => apply framed_emit
    | |- framed (park_until _) => apply framed_park_until
    | |- framed (mark_started _) => apply framed_mark_started
    | |- framed Blocks => apply framed_Blocks
    | |- framed (deref _) => apply framed_deref
    | |- framed (match ?x with _ => _ end) => destruct x
    | |- framed (if ?x then _ else _) => destruct x
    | H : framed ?m |- framed ?m => exact H
    end.

Lemma framed_recv (c : chan) : framed (recv tl c).
Proof. unfold recv. framed. Qed.

Lemma framed_WaitForCacheSync (stopCh : chan) (fs : list cache.InformerSynced) :
  framed (WaitForCacheSync tl stopCh fs).
Proof. unfold WaitForCacheSync. framed. Qed.

Lemma framed_start_each (infs : list cache.SharedIndexInformer) (stopCh : chan) :
  framed (start_each infs stopCh).
Proof.
  induction infs as [|i infs IH]; simpl; [apply framed_ret|].
  unfold go_Informer_Run. framed.
Qed.

Lemma framed_wait_each (infs : list cache.SharedIndexInformer) (stopCh : chan) :
  framed (wait_each tl infs stopCh).
Proof.
  induction infs as [|i infs IH]; simpl; [apply framed_ret|].
  apply framed_bind; [apply framed_WaitForCacheSync|intros b]. framed.
Qed.

Lemma framed_Run (sched : Scheduler) (ctx : context.Context) : framed (Run tl sched ctx).
Proof.
  unfold Run, Broadcaster_StartRecordingToSink, go_Informer_Run,
    InformerFactory_Start, InformerFactory_WaitForCacheSync.
  repeat lazymatch goal with
    | |- framed (recv _ _) => apply framed_recv
    | |- framed (WaitForCacheSync _ _ _) => apply framed_WaitForCacheSync
    | |- framed (start_each _ _) => apply framed_start_each
    | |- framed (wait_each _ _ _) => apply framed_wait_each
    | |- _ => progress framed
    end.
Qed.

(** [Run] is the run of the handle without broadcaster, after the call of
    step 1 if it is made. *)
Lemma Run_recording (sched : Scheduler) (ctx : context.Context) (s : Proc) :
  Run tl sched ctx s =
  Run tl (without_broadcaster sched) ctx
    {| now := now s; startedInformers := startedInformers s;
       trace := trace s ++ recording_of sched |}.
Proof.
  unfold recording_of. destruct s as [n st tr]. simpl.
  unfold Run at 1. rewrite bind_unfold.
  destruct (Broadcaster (Config sched)) as [b|];
    [destruct (EventClient (Config sched)) as [ec|]|]; simpl;
    rewrite ?app_nil_r; reflexivity.
Qed.

(** ** The calls of a run, in order *)

(** The calls of [Run]: the recording if any, then the launches, then the
    waits and the receive; a wait or a receive is only made on a handle
    with a pod informer and a factory, after the launch of the pod informer,
    the factory's [Start] and the launch of each informer registered in it
    (unless it was started already). *)
Lemma Run_trace (sched : Scheduler) (ctx : context.Context) (s : Proc) :
  ∃ launch tail,
    trace (final (Run tl sched ctx s)) = trace s ++ recording_of sched ++ launch ++ tail ∧
    Forall (λ e, step_of e = launching) launch ∧
    Forall (λ e, step_of e = waiting ∨ step_of e = receiving) tail ∧
    (tail ≠ [] →
     ∃ pi fac,
       PodInformer (Config sched) = Some pi ∧
       InformerFactory (Config sched) = Some fac ∧
       go_Run (informers.Informer pi) (StopCh sched) ∈ launch ∧
       Start (StopCh sched) ∈ launch ∧
       ∀ i, i ∈ informers.registered fac →
            i ∈ startedInformers s ∨ go_Run i (StopCh sched) ∈ launch).
Proof.
  rewrite Run_phases, bind_unfold.
  pose proof (Run_launch_spec sched s) as Hl.
  destruct (PodInformer (Config sched)) as [pi|] eqn:Hpi;
    [destruct (InformerFactory (Config sched)) as [fac|] eqn:Hfac|].
  - destruct Hl as (new & -> & _ & Hor). rewrite bind_unfold.
    exists (go_Run (informers.Informer pi) (StopCh sched) :: Start (StopCh sched) ::
            ((λ i, go_Run i (StopCh sched)) <$> new)).
    match goal with |- context [Run_wait tl sched ctx ?s1] =>
      destruct (Run_wait_spec sched ctx s1 fac Hfac) as (evs & Htr & Hevs & Hw);
      destruct (Run_wait tl sched ctx s1) as [synced s2|s2|s2] end; simpl in *; [| |done].
    + destruct Hw as [-> _]. rewrite Run_finish_spec.
      exists (Factory_WaitForCacheSync (StopCh sched) :: evs ++ [receive (StopCh sched)]).
      split_and!.
      * destruct (closed_at tl (StopCh sched)); simpl; rewrite Htr;
          by rewrite <-!app_assoc.
      * repeat constructor. by apply Forall_fmap, Forall_forall.
      * constructor; [simpl; by left|]. apply Forall_app. split.
        -- eapply Forall_impl; [exact Hevs|]. intros e He. by left.
        -- constructor; [simpl; by right|constructor].
      * intros _. exists pi, fac. split_and!; [done|done|by left|right; by left|].
        intros i Hi. destruct (Hor i Hi) as [?|Hn]; [by left|right].
        do 2 right. by apply (list_elem_of_fmap_2 (λ i, go_Run i (StopCh sched))).
    + exists (Factory_WaitForCacheSync (StopCh sched) :: evs). split_and!.
      * rewrite Htr. by rewrite <-!app_assoc.
      * repeat constructor. by apply Forall_fmap, Forall_forall.
      * constructor; [simpl; by left|]. eapply Forall_impl; [exact Hevs|]. intros e He. by left.
      * intros _. exists pi, fac. split_and!; [done|done|by left|right; by left|].
        intros i Hi. destruct (Hor i Hi) as [?|Hn]; [by left|right].
        do 2 right. by apply (list_elem_of_fmap_2 (λ i, go_Run i (StopCh sched))).
  - rewrite Hl. simpl.
    exists [go_Run (informers.Informer pi) (StopCh sched)], [].
    split_and!; [by rewrite app_nil_r|by repeat constructor|constructor|done].
  - rewrite Hl. simpl. exists [], [].
    split_and!; [by rewrite !app_nil_r|constructor|constructor|done].
Qed.

(** If the calls before a point all fail [P], a call that satisfies [P]
    comes after them. *)
Lemma split_after_prefix {A} (P : A → Prop) (l1 l2 before after : list A) (e : A) :
  l1 ++ l2 = before ++ e :: after →
  Forall (λ x, ¬ P x) l1 → P e →
  ∃ m, before = l1 ++ m ∧ l2 = m ++ e :: after.
Proof.
  revert before. induction l1 as [|x l1 IH]; intros before Heq Hl1 He; simpl in *.
  - by exists before.
  - apply Forall_cons in Hl1 as [Hx Hl1].
    destruct before as [|y before]; simpl in *.
    + injection Heq as -> _. done.
    + injection Heq as -> Heq.
      destruct (IH before Heq Hl1 He) as (m & -> & ->). by exists m.
Qed.

Lemma recording_of_step (sched : Scheduler) :
  Forall (λ e, step_of e = recording) (recording_of sched).
Proof.
  unfold recording_of.
  destruct (Broadcaster (Config sched)); [destruct (EventClient (Config sched))|];
    by repeat constructor.
Qed.

(** [Run] never returns an error: the wait of line 90 tracks no feed. *)
Lemma Run_never_fails (sched : Scheduler) (ctx : context.Context) (s : Proc) (err : error) :
  returned (Run tl sched ctx s) ≠ Some (Some err).
Proof.
  destruct (PodInformer (Config sched)) as [pi|] eqn:Hpi;
    [destruct (InformerFactory (Config sched)) as [fac|] eqn:Hfac|].
  - pose proof (Run_outcome sched ctx s pi fac Hpi Hfac) as Ho.
    destruct (closed_at tl (StopCh sched)); destruct Ho as (s' & -> & _) || destruct Ho as (s' & ->);
      done.
  - rewrite Run_phases, bind_unfold.
    pose proof (Run_launch_spec sched s) as Hl. rewrite Hpi, Hfac in Hl. by rewrite Hl.
  - rewrite Run_phases, bind_unfold.
    pose proof (Run_launch_spec sched s) as Hl. rewrite Hpi in Hl. by rewrite Hl.
Qed.

(** ** C1: when [Run] returns nil *)

(** C1, as amended.  On a handle with a pod informer and an informer
    factory, in an execution in which the context is not done before the
    shutdown signal fires, [Run] returns nil if and only if the shutdown
    signal fires; it then returns at the moment the signal fires, at once if
    it had fired already, and never before it.  Whether the feeds are synced
    by then plays no part. *)
Theorem nil_iff_shutdown (sched : Scheduler) (ctx : context.Context) (s : Proc)
    (pi : informers.PodInformer) (fac : informers.SharedInformerFactory) :
  PodInformer (Config sched) = Some pi →
  InformerFactory (Config sched) = Some fac →
  (∀ d, closed_at tl (context.Done ctx) = Some d →
        ∃ c, closed_at tl (StopCh sched) = Some c ∧ c ≤ d) →
  ((∃ s', Run tl sched ctx s = Returns None s') ↔ is_Some (closed_at tl (StopCh sched))) ∧
  (∀ s', Run tl sched ctx s = Returns None s' →
     closed_by tl (now s') (StopCh sched) ∧
     ∃ c, closed_at tl (StopCh sched) = Some c ∧ now s' = now s `max` c).
Proof.
  intros Hpi Hfac _.
  pose proof (Run_outcome sched ctx s pi fac Hpi Hfac) as Ho.
  destruct (closed_at tl (StopCh sched)) as [c|] eqn:Hc.
  - destruct Ho as (s' & Hrun & Hnow). split.
    + split; [by eexists|by exists s'].
    + intros s'' Hrun'. rewrite Hrun in Hrun'. injection Hrun' as <-.
      split; [|by exists c]. apply (closed_by_Some _ _ _ Hc). lia.
  - destruct Ho as (s' & Hrun). rewrite Hrun. split.
    + split; [by intros (? & [=])|by intros [? [=]]].
    + by intros ? [=].
Qed.

(** ** C3: the context during the wait *)

(** C3, the code at the failing input.  With nodes never synced and the
    context done at 3, [Run] started at 0 is still parked in the factory's
    wait on the stop channel, and returns no error; if the stop channel is
    closed at 10, [Run] returns nil at 10. *)
Theorem context_done_during_wait :
  Run inputs.cancelled_never_synced inputs.handle inputs.ctx (boot 0) =
    Blocks {| now := 0;
              startedInformers := [inputs.nodes];
              trace := [StartRecordingToSink (events.Supplied 9) inputs.stop;
                        go_Run inputs.pods inputs.stop;
                        Start inputs.stop;
                        go_Run inputs.nodes inputs.stop;
                        Factory_WaitForCacheSync inputs.stop;
                        cache_WaitForCacheSync inputs.stop ["nodes"]] |} ∧
  Run inputs.cancelled_then_shutdown inputs.handle inputs.ctx (boot 0) =
    Returns None
      {| now := 10;
         startedInformers := [inputs.nodes];
         trace := [StartRecordingToSink (events.Supplied 9) inputs.stop;
                   go_Run inputs.pods inputs.stop;
                   Start inputs.stop;
                   go_Run inputs.nodes inputs.stop;
                   Factory_WaitForCacheSync inputs.stop;
                   cache_WaitForCacheSync inputs.stop ["nodes"];
                   cache_WaitForCacheSync (context.Done inputs.ctx) [];
                   receive inputs.stop] |}.
Proof. split; vm_compute; reflexivity. Qed.

(** ** C4: what ends the wait *)



(** ** C8: the event broadcaster *)

(** The calls of a run on a handle with its informers, up to the factory's
    wait. *)
Lemma Run_continues (sched : Scheduler) (ctx : context.Context) (s : Proc)
    (pi : informers.PodInformer) (fac : informers.SharedInformerFactory) :
  PodInformer (Config sched) = Some pi →
  InformerFactory (Config sched) = Some fac →
  ∃ new rest,
    trace (final (Run tl sched ctx s)) =
      trace s ++ recording_of sched ++
      go_Run (informers.Informer pi) (StopCh sched) :: Start (StopCh sched) ::
      ((λ i, go_Run i (StopCh sched)) <$> new) ++
      Factory_WaitForCacheSync (StopCh sched) :: rest ∧
    ∀ i, i ∈ informers.registered fac → i ∈ startedInformers s ∨ i ∈ new.
Proof.
  intros Hpi Hfac. rewrite Run_phases, bind_unfold.
  pose proof (Run_launch_spec sched s) as Hl. rewrite Hpi, Hfac in Hl.
  destruct Hl as (new & -> & _ & Hor). rewrite bind_unfold. exists new.
  match goal with |- context [Run_wait tl sched ctx ?s1] =>
    destruct (Run_wait_spec sched ctx s1 fac Hfac) as (evs & Htr & _ & Hw);
    destruct (Run_wait tl sched ctx s1) as [synced s2|s2|s2] end; simpl in *; [| |done].
  - destruct Hw as [-> _]. rewrite Run_finish_spec.
    exists (evs ++ [receive (StopCh sched)]). split; [|done].
    destruct (closed_at tl (StopCh sched)); simpl; rewrite Htr;
      rewrite <-!app_assoc; simpl; by rewrite <-?app_assoc.
  - exists evs. split; [|done]. rewrite Htr. rewrite <-!app_assoc. simpl.
    by rewrite <-?app_assoc.
Qed.

(** C8.  A run started at [t0] records events to the sink if and only if
    the configuration has both a broadcaster and an event client; the call
    is then the first of the run.  Apart from that call, the run is the run
    of the same handle without broadcaster, which never makes it: same
    outcome, same clock, same calls after it.  And the run goes on as lines
    83-95 say, recording or not: the pod informer is launched next (a panic
    if there is none), then the factory is started (a panic if there is
    none) with every informer registered in it, then the factory's wait is
    entered, and the run returns nil when the stop channel is closed, at that
    moment, and does not return if it never is. *)
Theorem recording_iff_broadcaster_and_client (sched : Scheduler) (ctx : context.Context)
    (t0 : time) :
  let run := Run tl sched ctx (boot t0) in
  let quiet := Run tl (without_broadcaster sched) ctx (boot t0) in
  ((∃ b stopCh, StartRecordingToSink b stopCh ∈ trace (final run)) ↔
   is_Some (Broadcaster (Config sched)) ∧ is_Some (EventClient (Config sched))) ∧
  (∀ b stopCh, StartRecordingToSink b stopCh ∈ trace (final run) →
     Broadcaster (Config sched) = Some b ∧ stopCh = StopCh sched) ∧
  run = map_state (prefix_trace (recording_of sched)) quiet ∧
  Forall (λ e, step_of e ≠ recording) (trace (final quiet)) ∧
  match PodInformer (Config sched), InformerFactory (Config sched) with
  | Some pi, Some fac =>
      (∃ new rest,
         trace (final run) =
           recording_of sched ++
           go_Run (informers.Informer pi) (StopCh sched) :: Start (StopCh sched) ::
           ((λ i, go_Run i (StopCh sched)) <$> new) ++
           Factory_WaitForCacheSync (StopCh sched) :: rest ∧
         ∀ i, i ∈ informers.registered fac → i ∈ new) ∧
      match closed_at tl (StopCh sched) with
      | Some c => ∃ s', run = Returns None s' ∧ now s' = t0 `max` c
      | None => ∃ s', run = Blocks s'
      end
  | Some pi, None =>
      run = Panics {| now := t0; startedInformers := [];
                      trace := recording_of sched ++
                               [go_Run (informers.Informer pi) (StopCh sched)] |}
  | None, _ =>
      run = Panics {| now := t0; startedInformers := [];
                      trace := recording_of sched |}
  end.
Proof.
  intros run quiet.
  assert (Hquiet : Forall (λ e, step_of e ≠ recording) (trace (final quiet))).
  { destruct (Run_trace (without_broadcaster sched) ctx (boot t0))
      as (launch & tail & Htr & Hlaunch & Htail & _).
    fold quiet in Htr. rewrite Htr. simpl.
    apply Forall_app. split.
    - eapply Forall_impl; [exact Hlaunch|]. by intros e ->.
    - eapply Forall_impl; [exact Htail|]. by intros e [-> | ->]. }
  assert (Hrun : run = map_state (prefix_trace (recording_of sched)) quiet).
  { unfold run, quiet. rewrite Run_recording. simpl.
    rewrite <-(app_nil_r (recording_of sched)) at 1. apply framed_Run. }
  assert (Htrace : trace (final run) = recording_of sched ++ trace (final quiet)).
  { rewrite Hrun. by destruct quiet. }
  assert (Hin : ∀ b stopCh, StartRecordingToSink b stopCh ∈ trace (final run) →
                  StartRecordingToSink b stopCh ∈ recording_of sched).
  { intros b stopCh. rewrite Htrace, elem_of_app. intros [?|Hq]; [done|].
    rewrite Forall_forall in Hquiet. by destruct (Hquiet _ Hq). }
  split_and!; [split| |done|done|].
  - intros (b & stopCh & Hb%Hin). unfold recording_of in Hb.
    destruct (Broadcaster (Config sched)); [destruct (EventClient (Config sched))|];
      try (by apply elem_of_nil in Hb). split; by eexists.
  - intros [[b Hb] [ec Hec]]. exists b, (StopCh sched).
    rewrite Htrace. unfold recording_of. rewrite Hb, Hec. by left.
  - intros b stopCh Hb%Hin. unfold recording_of in Hb.
    destruct (Broadcaster (Config sched)); [destruct (EventClient (Config sched))|];
      try (by apply elem_of_nil in Hb).
    apply list_elem_of_singleton in Hb. by injection Hb as -> ->.
  - clear Hquiet Hrun Htrace Hin. unfold run.
    pose proof (Run_launch_spec sched (boot t0)) as Hl.
    destruct (PodInformer (Config sched)) as [pi|] eqn:Hpi;
      [destruct (InformerFactory (Config sched)) as [fac|] eqn:Hfac|].
    + split.
      * destruct (Run_continues sched ctx (boot t0) pi fac Hpi Hfac)
          as (new & rest & Htr & Hreg).
        exists new, rest. split; [done|].
        intros i Hi. destruct (Hreg i Hi) as [Hnil|?]; [|done].
        by apply elem_of_nil in Hnil.
      * exact (Run_outcome sched ctx (boot t0) pi fac Hpi Hfac).
    + by rewrite Run_phases, bind_unfold, Hl.
    + by rewrite Run_phases, bind_unfold, Hl.
Qed.

(** ** C9: the informers are launched before the wait *)

(** C9.  In every run, whatever its outcome, each wait for cache sync comes
    after the launch of the pod informer, after the factory's [Start], and
    after the launch of every informer registered in the factory. *)
Theorem drivers_launched_before_wait (sched : Scheduler) (ctx : context.Context) (t0 : time)
    (before after : list Event) (e : Event) :
  trace (final (Run tl sched ctx (boot t0))) = before ++ e :: after →
  step_of e = waiting →
  ∃ pi fac,
    PodInformer (Config sched) = Some pi ∧
    InformerFactory (Config sched) = Some fac ∧
    go_Run (informers.Informer pi) (StopCh sched) ∈ before ∧
    Start (StopCh sched) ∈ before ∧
    ∀ i, i ∈ informers.registered fac → go_Run i (StopCh sched) ∈ before.
Proof.
  intros Htr He.
  destruct (Run_trace sched ctx (boot t0)) as (launch & tail & Heq & Hlaunch & _ & Hfull).
  rewrite Htr in Heq. simpl in Heq. rewrite app_assoc in Heq. symmetry in Heq.
  apply (split_after_prefix (λ e, step_of e = waiting)) in Heq as (m & -> & ->); [|
    |done].
  - destruct Hfull as (pi & fac & Hpi & Hfac & Hgo & Hstart & Hreg);
      [by destruct m|].
    exists pi, fac. split_and!; [done|done|..].
    + rewrite !elem_of_app. auto.
    + rewrite !elem_of_app. auto.
    + intros i Hi. destruct (Hreg i Hi) as [Hnil|Hi']; [by apply elem_of_nil in Hnil|].
      rewrite !elem_of_app. auto.
  - apply Forall_app. split.
    + eapply Forall_impl; [apply recording_of_step|]. by intros x ->.
    + eapply Forall_impl; [exact Hlaunch|]. by intros x ->.
Qed.

End run_properties.

(** * The properties at the concrete inputs *)

Section examples.
Import schedulerappconfig multischeduler inputs.

(** ** Construction *)

(** C2 fails as stated: the zero configuration, which lacks every
    sub-configuration, makes [NewScheduler] panic and return no error; the
    configuration without pod informer goes through to [scheduler.New] and
    comes back as a handle. *)
Lemma incomplete_configuration_not_rejected :
  Client zero = None ∧
  NewScheduler modern ctx zero stop = Panics {| frame_cc := zero; calls := [] |} ∧
  PodInformer no_pod_informer = None ∧
  NewScheduler modern ctx no_pod_informer stop =
    let cc := set_Broadcaster (Some (sink_broadcaster 3)) no_pod_informer in
    let args := New_args cc (profile.NewRecorderFactory (Some (sink_broadcaster 3))) stop in
    Returns (Some {| Scheduler_embedded := Some {| scheduler.core := 1 |};
                     Config := cc; StopCh := stop |}, None)
            {| frame_cc := cc; calls := [probe; scheduler_New args] |}.
Proof. split_and!; reflexivity. Qed.

(** C5 fails as stated: on a cluster that serves the events group, the
    broadcaster the caller supplied is replaced. *)
Lemma Broadcaster_overwritten :
  Broadcaster complete = Some (events.Supplied 9) ∧
  Broadcaster (frame_cc (final (NewScheduler modern ctx complete stop))) =
    Some (events.NewBroadcaster {| events.Interface := events.Events 3 "" |}) ∧
  frame_cc (final (NewScheduler modern ctx complete stop)) ≠ complete ∧
  ∃ sched, returned (NewScheduler modern ctx complete stop) = Some (Some sched, None) ∧
           Config sched ≠ complete.
Proof.
  split_and!; [reflexivity|reflexivity|discriminate|].
  eexists. split; [reflexivity|discriminate].
Qed.

(** C6, the code at the failing input.  When the probe succeeds on a
    configuration without event client, no factory is returned: line 99 calls
    [Events] on the nil [EventClient], so [getRecorderFactory] panics after
    the probe, and so does [NewScheduler].  Line 79 of [Run] guards against
    the same nil. *)
Lemma probe_succeeds_without_event_client :
  discovery modern 1 eventsv1beta1.SchemeGroupVersion_String = None ∧
  EventClient no_event_client = None ∧
  getRecorderFactory modern address_of_cc {| frame_cc := no_event_client; calls := [] |} =
    Panics {| frame_cc := no_event_client; calls := [probe] |} ∧
  NewScheduler modern ctx no_event_client stop =
    Panics {| frame_cc := no_event_client; calls := [probe] |}.
Proof. split_and!; reflexivity. Qed.

(** The choice of the factory on the complete configuration: the sink
    broadcaster of client 3 on the modern cluster, the adapter around the
    recorders of core broadcaster 7 on the legacy one, where a handle is
    returned all the same. *)
Lemma recorder_factory_by_probe_witness :
  Client complete = Some 1 ∧
  (∃ rf, getRecorderFactory modern address_of_cc {| frame_cc := complete; calls := [] |} =
           Returns rf {| frame_cc := set_Broadcaster (Some (sink_broadcaster 3)) complete;
                         calls := [probe] |} ∧
         rf "default-scheduler" =
           Some (events.NewRecorder (sink_broadcaster 3) scheme.Scheme "default-scheduler")) ∧
  (∃ rf, getRecorderFactory legacy address_of_cc {| frame_cc := complete; calls := [] |} =
           Returns rf {| frame_cc := complete; calls := [probe] |} ∧
         rf "default-scheduler" =
           Some (events.NewEventRecorderAdapter
                   (record.NewRecorder 7 scheme.Scheme
                      {| v1.Component := "default-scheduler" |}))) ∧
  ∃ sched, returned (NewScheduler legacy ctx complete stop) = Some (Some sched, None).
Proof.
  split; [reflexivity|].
  pose proof (recorder_factory_by_probe modern address_of_cc
                {| frame_cc := complete; calls := [] |} 1 eq_refl) as [Hmodern _].
  pose proof (recorder_factory_by_probe legacy address_of_cc
                {| frame_cc := complete; calls := [] |} 1 eq_refl) as [_ Hlegacy].
  destruct (Hmodern eq_refl 3 eq_refl) as (rf & Hrf & Hname).
  destruct (Hlegacy _ eq_refl) as [(rf' & Hrf' & Hname') Hnew].
  destruct (Hnew ctx stop) as (args & Hcalls & Hret).
  split_and!.
  - exists rf. split; [exact Hrf|apply Hname].
  - exists rf'. split; [exact Hrf'|apply Hname'].
  - eexists. apply Hret. simpl in Hcalls. injection Hcalls as <-. reflexivity.
Defined.

(** On the broken cluster the error of [scheduler.New] comes back as it
    is, after one probe and one call of the constructor. *)
Lemma construction_error_unchanged_witness :
  let args := New_args (set_Broadcaster (Some (sink_broadcaster 3)) complete)
                (profile.NewRecorderFactory (Some (sink_broadcaster 3))) stop in
  let err := mkError "couldn't create scheduler using provider" in
  scheduler_New args ∈ calls (final (NewScheduler broken ctx complete stop)) ∧
  (construct broken args).2 = Some err ∧
  returned (NewScheduler broken ctx complete stop) = Some (None, Some err) ∧
  ∃ c, calls (final (NewScheduler broken ctx complete stop)) =
         [ServerResourcesForGroupVersion c eventsv1beta1.SchemeGroupVersion_String;
          scheduler_New args].
Proof.
  intros args err.
  assert (Hin : scheduler_New args ∈ calls (final (NewScheduler broken ctx complete stop))).
  { apply list_elem_of_further, list_elem_of_here. }
  split; [exact Hin|]. split; [reflexivity|].
  exact (construction_error_unchanged broken ctx complete stop args err Hin eq_refl).
Defined.

(** The registry handed to [scheduler.New] for the complete configuration
    is empty. *)
Lemma out_of_tree_registry_empty_witness :
  let args := New_args (set_Broadcaster (Some (sink_broadcaster 3)) complete)
                (profile.NewRecorderFactory (Some (sink_broadcaster 3))) stop in
  scheduler_New args ∈ calls (final (NewScheduler modern ctx complete stop)) ∧
  ∃ registry : framework.Registry,
    scheduler.frameworkOutOfTreeRegistry (scheduler.opts args) = Some registry ∧
    (∀ r, scheduler.WithFrameworkOutOfTreeRegistry r ∈ scheduler.opts args → r = registry) ∧
    (∀ name, registry !! name = None) ∧
    size registry = 0.
Proof.
  intros args.
  assert (Hin : scheduler_New args ∈ calls (final (NewScheduler modern ctx complete stop))).
  { apply list_elem_of_further, list_elem_of_here. }
  split; [exact Hin|].
  exact (out_of_tree_registry_empty modern ctx complete stop args Hin).
Defined.

(** ** Runs *)

(** The clean run: the wait is over at 5, when nodes is synced, and [Run]
    returns nil at 10, when the stop channel is closed. *)
Example clean_run_outcome :
  now (final (Run_wait clean_run handle ctx launched)) = 5 ∧
  Run clean_run handle ctx (boot 0) =
    Returns None
      {| now := 10;
         startedInformers := [nodes];
         trace := [StartRecordingToSink (events.Supplied 9) stop;
                   go_Run pods stop; Start stop; go_Run nodes stop;
                   Factory_WaitForCacheSync stop;
                   cache_WaitForCacheSync stop ["nodes"];
                   cache_WaitForCacheSync (context.Done ctx) [];
                   receive stop] |}.
Proof. split; vm_compute; reflexivity. Qed.

(** C1 fails as stated: with a shutdown at 2 and feeds that never sync,
    [Run] started at 0 returns nil at 2. *)
Lemma nil_without_sync :
  Run shutdown_before_sync handle ctx (boot 0) =
    Returns None
      {| now := 2;
         startedInformers := [nodes];
         trace := [StartRecordingToSink (events.Supplied 9) stop;
                   go_Run pods stop; Start stop; go_Run nodes stop;
                   Factory_WaitForCacheSync stop;
                   cache_WaitForCacheSync stop ["nodes"];
                   cache_WaitForCacheSync (context.Done ctx) [];
                   receive stop] |} ∧
  ¬ synced_by shutdown_before_sync 2 "pods" ∧
  ¬ synced_by shutdown_before_sync 2 "nodes".
Proof.
  split_and!; [vm_compute; reflexivity|..]; intros (t & [=] & _).
Qed.

(** On the clean run (shutdown at 10, context cancelled at 12) [Run]
    returns nil, at 10. *)
Lemma nil_iff_shutdown_witness :
  PodInformer (Config handle) = Some {| informers.Informer := pods |} ∧
  InformerFactory (Config handle) = Some {| informers.registered := [nodes] |} ∧
  (∀ d, closed_at clean_run (context.Done ctx) = Some d →
        ∃ c, closed_at clean_run (StopCh handle) = Some c ∧ c ≤ d) ∧
  ((∃ s', Run clean_run handle ctx (boot 0) = Returns None s') ↔
   is_Some (closed_at clean_run (StopCh handle))) ∧
  (∀ s', Run clean_run handle ctx (boot 0) = Returns None s' →
     closed_by clean_run (now s') (StopCh handle) ∧
     ∃ c, closed_at clean_run (StopCh handle) = Some c ∧ now s' = now (boot 0) `max` c).
Proof.
  assert (Hctx : ∀ d, closed_at clean_run (context.Done ctx) = Some d →
                   ∃ c, closed_at clean_run (StopCh handle) = Some c ∧ c ≤ d).
  { intros d Hd. exists 10. vm_compute in Hd. injection Hd as <-.
    split; [reflexivity|lia]. }
  split; [reflexivity|]. split; [reflexivity|]. split; [exact Hctx|].
  exact (nil_iff_shutdown clean_run handle ctx (boot 0) _ _ eq_refl eq_refl Hctx).
Defined.



(** On the clean run the factory's wait comes after the four launches. *)
Lemma drivers_launched_before_wait_witness :
  let before := [StartRecordingToSink (events.Supplied 9) stop;
                 go_Run pods stop; Start stop; go_Run nodes stop] in
  let e := Factory_WaitForCacheSync stop in
  let after := [cache_WaitForCacheSync stop ["nodes"];
                cache_WaitForCacheSync (context.Done ctx) [];
                receive stop] in
  trace (final (Run clean_run handle ctx (boot 0))) = before ++ e :: after ∧
  step_of e = waiting ∧
  ∃ pi fac,
    PodInformer (Config handle) = Some pi ∧
    InformerFactory (Config handle) = Some fac ∧
    go_Run (informers.Informer pi) (StopCh handle) ∈ before ∧
    Start (StopCh handle) ∈ before ∧
    ∀ i, i ∈ informers.registered fac → go_Run i (StopCh handle) ∈ before.
Proof.
  intros before e after.
  assert (Htr : trace (final (Run clean_run handle ctx (boot 0))) = before ++ e :: after)
    by (vm_compute; reflexivity).
  split; [exact Htr|]. split; [reflexivity|].
  exact (drivers_launched_before_wait clean_run handle ctx 0 before after e Htr eq_refl).
Defined.

End examples.

(** * Further properties of construction *)

Section construction_outcomes.
Import schedulerappconfig multischeduler.
Variable k : Cluster.

(** When [NewScheduler] returns, it has gone through [scheduler.New], on
    one of the two branches of [getRecorderFactory]. *)
Lemma NewScheduler_returned (ctx : context.Context) (cc : schedulerappconfig.Config)
    (stopCh : chan) (r : option Scheduler * option error) :
  returned (NewScheduler k ctx cc stopCh) = Some r →
  ∃ cc' rf c,
    Client cc = Some c ∧
    NewScheduler k ctx cc stopCh = NewScheduler_end k cc' rf stopCh c ∧
    ((is_Some (discovery k c eventsv1beta1.SchemeGroupVersion_String) ∧
      cc' = cc ∧ rf = adapter_factory (CoreBroadcaster cc)) ∨
     (discovery k c eventsv1beta1.SchemeGroupVersion_String = None ∧
      ∃ ec, EventClient cc = Some ec ∧
            cc' = set_Broadcaster (Some (sink_broadcaster ec)) cc ∧
            rf = profile.NewRecorderFactory (Some (sink_broadcaster ec)))).
Proof.
  rewrite NewScheduler_cases.
  destruct (Client cc) as [c|]; [|discriminate].
  destruct (discovery k c _) as [e|] eqn:Hd.
  - intros _. exists cc, (adapter_factory (CoreBroadcaster cc)), c.
    split_and!; [done|done|]. left. split_and!; [by eexists|done|done].
  - destruct (EventClient cc) as [ec|]; [|discriminate].
    intros _. eexists _, _, c. split_and!; [done|done|]. right. split; [done|].
    by exists ec.
Qed.

(** What [NewScheduler_end] returns, from the two results of
    [scheduler.New]. *)
Lemma NewScheduler_end_returned (cc : schedulerappconfig.Config) (rf : profile.RecorderFactory)
    (stopCh : chan) (c : Client_Interface) :
  returned (NewScheduler_end k cc rf stopCh c) =
  Some (match (construct k (New_args cc rf stopCh)).2 with
        | Some err => (None, Some err)
        | None => (Some {| Scheduler_embedded := (construct k (New_args cc rf stopCh)).1;
                           Config := cc; StopCh := stopCh |}, None)
        end).
Proof.
  unfold NewScheduler_end. by destruct (construct k _) as [sched [err|]].
Qed.

(** ** The two results of [NewScheduler] *)

(** X1.  When [NewScheduler] returns, exactly one of its two results is
    nil: the handle is nil if and only if the error is not.  A handle that is
    returned has the stop channel that was passed in, and embeds whatever
    [scheduler.New] returned as its first result, be it nil: a nil core with
    a nil error still gives a handle. *)
Theorem handle_iff_no_error (ctx : context.Context) (cc : schedulerappconfig.Config)
    (stopCh : chan) (h : option Scheduler) (e : option error) :
  returned (NewScheduler k ctx cc stopCh) = Some (h, e) →
  (h = None ↔ is_Some e) ∧
  ∀ sched, h = Some sched →
    StopCh sched = stopCh ∧
    ∃ args, scheduler_New args ∈ calls (final (NewScheduler k ctx cc stopCh)) ∧
            construct k args = (Scheduler_embedded sched, None).
Proof.
  intros Hret.
  destruct (NewScheduler_returned _ _ _ _ Hret) as (cc' & rf & c & _ & Heq & _).
  rewrite Heq in *. rewrite NewScheduler_end_returned in Hret.
  assert (Hin : scheduler_New (New_args cc' rf stopCh) ∈
                calls (final (NewScheduler_end k cc' rf stopCh c))).
  { unfold NewScheduler_end. destruct (construct k _) as [? [?|]]; simpl;
      apply list_elem_of_further, list_elem_of_here. }
  destruct (construct k (New_args cc' rf stopCh)) as [core [err|]] eqn:Hk; simpl in *;
    injection Hret as <- <-.
  - split; [split; [by eexists|done]|]. by intros sched [=].
  - split; [split; [intros [=]|by intros [? [=]]]|].
    intros sched [= <-]. split; [done|]. exists (New_args cc' rf stopCh). by rewrite Hk.
Qed.

(** ** How far construction gets *)

(** X2.  [NewScheduler] gets as far as [scheduler.New] if and only if the
    configuration has a [Client] and either the probe fails or there is an
    [EventClient].  When it does not get there it has panicked in the code of
    this file: at line 98 on the nil [Client], before any call, or at line 99
    on the nil [EventClient], the probe being the only call made.  What
    happens from the call of [scheduler.New] on is that function's. *)
Theorem NewScheduler_reaches_the_constructor (ctx : context.Context)
    (cc : schedulerappconfig.Config) (stopCh : chan) :
  let r := NewScheduler k ctx cc stopCh in
  ((∃ args, scheduler_New args ∈ calls (final r)) ↔
   ∃ c, Client cc = Some c ∧
        (is_Some (discovery k c eventsv1beta1.SchemeGroupVersion_String) ∨
         is_Some (EventClient cc))) ∧
  ((∀ args, scheduler_New args ∉ calls (final r)) →
   ∃ s, r = Panics s ∧
        ((Client cc = None ∧ calls s = []) ∨
         (∃ c, Client cc = Some c ∧
               discovery k c eventsv1beta1.SchemeGroupVersion_String = None ∧
               EventClient cc = None ∧
               calls s = [ServerResourcesForGroupVersion c
                            eventsv1beta1.SchemeGroupVersion_String]))).
Proof.
  intros r. unfold r. rewrite NewScheduler_cases.
  assert (Hend : ∀ cc' rf c,
    scheduler_New (New_args cc' rf stopCh) ∈
      calls (final (NewScheduler_end k cc' rf stopCh c))).
  { intros cc' rf c. unfold NewScheduler_end.
    destruct (construct k _) as [core [err|]]; simpl;
      apply list_elem_of_further, list_elem_of_here. }
  destruct (Client cc) as [c|] eqn:Hc.
  - destruct (discovery k c _) as [e|] eqn:Hd.
    + split.
      * split; [intros _; exists c; split; [done|left; by eexists]|].
        intros _. eexists. apply Hend.
      * intros Hnone. destruct (Hnone _ (Hend _ _ _)).
    + destruct (EventClient cc) as [ec|] eqn:Hec.
      * split.
        -- split; [intros _; exists c; split; [done|right; by eexists]|].
           intros _. eexists. apply Hend.
        -- intros Hnone. destruct (Hnone _ (Hend _ _ _)).
      * split.
        -- split.
           ++ intros (args & Hin). simpl in Hin.
              apply list_elem_of_singleton in Hin. discriminate.
           ++ intros (c' & [= <-] & [[x Hx]|[x Hx]]); congruence.
        -- intros _. eexists. split; [done|]. right. by exists c.
  - split.
    + split; [intros (args & Hin); by apply elem_of_nil in Hin|by intros (c & [=] & _)].
    + intros _. eexists. split; [done|]. by left.
Qed.

(** ** What the core is built with *)

(** X3.  Every call of [scheduler.New] made by [NewScheduler] is given the
    stop channel that was passed in, which is also the [StopCh] of the
    handle, and the nine options of lines 58-66 in that order, each with the
    value the caller's [ComponentConfig] has for it: the overwrite of
    [Broadcaster] that may come in between changes none of them. *)
Theorem core_built_from_component_config (ctx : context.Context)
    (cc : schedulerappconfig.Config) (stopCh : chan) (args : scheduler.NewArgs) :
  scheduler_New args ∈ calls (final (NewScheduler k ctx cc stopCh)) →
  scheduler.stopCh args = stopCh ∧
  scheduler.opts args =
    [ scheduler.WithProfiles (Profiles (ComponentConfig cc));
      scheduler.WithAlgorithmSource (AlgorithmSource (ComponentConfig cc));
      scheduler.WithPreemptionDisabled (DisablePreemption (ComponentConfig cc));
      scheduler.WithPercentageOfNodesToScore (PercentageOfNodesToScore (ComponentConfig cc));
      scheduler.WithBindTimeoutSeconds (BindTimeoutSeconds (ComponentConfig cc));
      scheduler.WithFrameworkOutOfTreeRegistry ∅;
      scheduler.WithPodMaxBackoffSeconds (PodMaxBackoffSeconds (ComponentConfig cc));
      scheduler.WithPodInitialBackoffSeconds (PodInitialBackoffSeconds (ComponentConfig cc));
      scheduler.WithExtenders (Extenders (ComponentConfig cc)) ] ∧
  ∀ sched, returned (NewScheduler k ctx cc stopCh) = Some (Some sched, None) →
           StopCh sched = scheduler.stopCh args.
Proof.
  intros Hin.
  destruct (NewScheduler_call k _ _ _ _ Hin) as (cc' & rf & c & _ & -> & Heq & _ & Hcc').
  split_and!; [done| |].
  - destruct Hcc' as [->|(ec & _ & ->)]; reflexivity.
  - intros sched. rewrite Heq, NewScheduler_end_returned.
    destruct ((construct k _).2); intros [=]. by subst sched.
Qed.

(** ** The recorders of the factory *)

(** X4.  A factory that [getRecorderFactory] returns binds its recorders to
    their names: two names that get the same recorder are the same name.  It
    either makes a recorder for every name or panics on every name, and it
    panics exactly when the probe failed on a configuration without
    [CoreBroadcaster]: the missing broadcaster goes unnoticed until the first
    recorder is asked for. *)
Theorem recorders_of_the_factory (cc : CompletedConfig) (s s' : Frame)
    (rf : profile.RecorderFactory) :
  getRecorderFactory k cc s = Returns rf s' →
  (∀ n1 n2 r, rf n1 = Some r → rf n2 = Some r → n1 = n2) ∧
  ((∀ name, is_Some (rf name)) ∨ (∀ name, rf name = None)) ∧
  ((∀ name, rf name = None) ↔
   CoreBroadcaster (frame_cc s) = None ∧
   ∃ c, Client (frame_cc s) = Some c ∧
        is_Some (discovery k c eventsv1beta1.SchemeGroupVersion_String)).
Proof.
  rewrite getRecorderFactory_cases.
  destruct (Client (frame_cc s)) as [c|] eqn:Hc; [|discriminate]. simpl.
  destruct (discovery k c _) as [e|] eqn:Hd.
  - intros [= <- <-]. unfold adapter_factory.
    destruct (CoreBroadcaster (frame_cc s)) as [b|]; simpl.
    + split_and!.
      * intros n1 n2 r [= <-] [=]. done.
      * left. by eexists.
      * split; [intros H; by specialize (H "")|by intros [[=] _]].
    + split_and!; [done|by right|].
      split; [|done]. intros _. split; [done|]. exists c. split; [done|]. rewrite Hd. by eexists.
  - destruct (EventClient (frame_cc s)) as [ec|]; [|discriminate].
    intros [= <- <-]. unfold profile.NewRecorderFactory. simpl. split_and!.
    + intros n1 n2 r [= <-] [=]. done.
    + left. by eexists.
    + split; [intros H; by specialize (H "")|].
      intros (_ & c' & [= <-] & Hs). rewrite Hd in Hs. by destruct Hs.
Qed.

End construction_outcomes.

(** * Further properties of a run *)

Section run_outcomes.
Import schedulerappconfig multischeduler.
Variable tl : Timeline.

(** The calls of a run started at [t0]: the recording if any, then calls
    that are not recordings. *)
Lemma Run_trace_head (sched : Scheduler) (ctx : context.Context) (t0 : time) :
  ∃ rest,
    trace (final (Run tl sched ctx (boot t0))) = recording_of sched ++ rest ∧
    Forall (λ e, step_of e ≠ recording) rest.
Proof.
  destruct (Run_trace tl sched ctx (boot t0)) as (launch & tail & Htr & Hlaunch & Htail & _).
  exists (launch ++ tail). split; [done|].
  apply Forall_app. split.
  - eapply Forall_impl; [exact Hlaunch|]. by intros e ->.
  - eapply Forall_impl; [exact Htail|]. by intros e [-> | ->].
Qed.

(** The factory's wait hands its stop channel to every wait it makes. *)
Lemma wait_each_chan (stopCh : chan) (infs : list cache.SharedIndexInformer) (s : Proc) :
  ∃ evs, trace (final (wait_each tl infs stopCh s)) = trace s ++ evs ∧
         Forall (λ e, chan_of e = stopCh) evs.
Proof.
  revert s. induction infs as [|i infs IH]; intros s; simpl.
  - exists []. by rewrite app_nil_r.
  - rewrite bind_unfold.
    pose proof (WaitForCacheSync_spec tl stopCh [cache.HasSynced i] s) as Hw.
    destruct (WaitForCacheSync tl stopCh [cache.HasSynced i] s) as [b s1|s1|s1]; [| |done].
    + destruct Hw as (_ & _ & _ & Htr). rewrite bind_unfold.
      destruct (IH s1) as (evs & Htr' & Hevs).
      exists (cache_WaitForCacheSync stopCh [cache.HasSynced i] :: evs).
      split; [|by constructor].
      destruct (wait_each tl infs stopCh s1) as [res s2|s2|s2]; simpl in *;
        by rewrite Htr', Htr, <-app_assoc.
    + destruct Hw as (_ & _ & _ & Htr). simpl.
      exists [cache_WaitForCacheSync stopCh [cache.HasSynced i]].
      split; [done|by repeat constructor].
Qed.

(** The three cases of [Run], by the informers of the handle. *)
Lemma Run_by_informers (sched : Scheduler) (ctx : context.Context) (s : Proc) :
  match PodInformer (Config sched), InformerFactory (Config sched) with
  | None, _ =>
      Run tl sched ctx s =
        Panics {| now := now s; startedInformers := startedInformers s;
                  trace := trace s ++ recording_of sched |}
  | Some pi, None =>
      Run tl sched ctx s =
        Panics {| now := now s; startedInformers := startedInformers s;
                  trace := trace s ++ recording_of sched ++
                           [go_Run (informers.Informer pi) (StopCh sched)] |}
  | Some _, Some _ => ∀ s', Run tl sched ctx s ≠ Panics s'
  end.
Proof.
  pose proof (Run_launch_spec sched s) as Hl.
  destruct (PodInformer (Config sched)) as [pi|] eqn:Hpi;
    [destruct (InformerFactory (Config sched)) as [fac|] eqn:Hfac|].
  - pose proof (Run_outcome tl sched ctx s pi fac Hpi Hfac) as Ho.
    intros s'. destruct (closed_at tl (StopCh sched)).
    + destruct Ho as (s'' & -> & _). done.
    + destruct Ho as (s'' & ->). done.
  - by rewrite Run_phases, bind_unfold, Hl.
  - by rewrite Run_phases, bind_unfold, Hl.
Qed.

(** ** A handle without informers *)

(** X5.  [Run] panics exactly on a handle whose configuration lacks the pod
    informer or the informer factory.  Without pod informer it panics before
    anything is launched (the recording, if any, has been started); with a
    pod informer but no factory it panics when the pod informer has already
    been launched, and nothing stops that informer. *)
Theorem Run_panics_without_informers (sched : Scheduler) (ctx : context.Context) (s : Proc) :
  match PodInformer (Config sched), InformerFactory (Config sched) with
  | None, _ =>
      Run tl sched ctx s =
        Panics {| now := now s; startedInformers := startedInformers s;
                  trace := trace s ++ recording_of sched |}
  | Some pi, None =>
      Run tl sched ctx s =
        Panics {| now := now s; startedInformers := startedInformers s;
                  trace := trace s ++ recording_of sched ++
                           [go_Run (informers.Informer pi) (StopCh sched)] |}
  | Some _, Some _ => ∀ s', Run tl sched ctx s ≠ Panics s'
  end.
Proof. apply Run_by_informers. Qed.

(** ** The context of a run *)

(** X6.  [Run] never returns an error, and its context plays no part in
    what it returns: with any two contexts it returns the same value or does
    not return, and when it returns it does so at the same time. *)
Theorem Run_whatever_the_context (sched : Scheduler) (ctx ctx' : context.Context) (s : Proc) :
  (∀ err, returned (Run tl sched ctx s) ≠ Some (Some err)) ∧
  returned (Run tl sched ctx s) = returned (Run tl sched ctx' s) ∧
  ∀ v s1, Run tl sched ctx s = Returns v s1 →
          ∃ s2, Run tl sched ctx' s = Returns v s2 ∧ now s2 = now s1.
Proof.
  split; [intros err; apply Run_never_fails|].
  pose proof (Run_by_informers sched ctx s) as Hp.
  pose proof (Run_by_informers sched ctx' s) as Hp'.
  destruct (PodInformer (Config sched)) as [pi|] eqn:Hpi;
    [destruct (InformerFactory (Config sched)) as [fac|] eqn:Hfac|].
  - pose proof (Run_outcome tl sched ctx s pi fac Hpi Hfac) as Ho.
    pose proof (Run_outcome tl sched ctx' s pi fac Hpi Hfac) as Ho'.
    destruct (closed_at tl (StopCh sched)) as [c|].
    + destruct Ho as (s1 & -> & Hn), Ho' as (s2 & -> & Hn').
      split; [done|]. intros v s1' [= <- <-]. exists s2. split; [done|lia].
    + destruct Ho as (s1 & ->), Ho' as (s2 & ->). split; [done|]. by intros v s1' [=].
  - rewrite Hp, Hp'. split; [done|]. by intros v s1' [=].
  - rewrite Hp, Hp'. split; [done|]. by intros v s1' [=].
Qed.

(** ** The channels of a run *)

(** X7.  Every call [Run] makes is given the stop channel of the handle,
    but for one: the wait of line 90, which is given the context's channel
    and no feed.  So the context is never handed to the broadcaster, to an
    informer or to the factory, and cancelling it stops none of them. *)
Theorem Run_hands_out_the_stop_channel (sched : Scheduler) (ctx : context.Context) (s : Proc) :
  ∃ evs,
    trace (final (Run tl sched ctx s)) = trace s ++ evs ∧
    Forall (λ e, chan_of e = StopCh sched ∨
                 e = cache_WaitForCacheSync (context.Done ctx) []) evs.
Proof.
  assert (Hrec : Forall (λ e, chan_of e = StopCh sched ∨
                              e = cache_WaitForCacheSync (context.Done ctx) [])
                   (recording_of sched)).
  { unfold recording_of.
    destruct (Broadcaster (Config sched)); [destruct (EventClient (Config sched))|];
      repeat constructor. }
  pose proof (Run_by_informers sched ctx s) as Hp.
  pose proof (Run_launch_spec sched s) as Hl.
  destruct (PodInformer (Config sched)) as [pi|] eqn:Hpi;
    [destruct (InformerFactory (Config sched)) as [fac|] eqn:Hfac|].
  - clear Hp. destruct Hl as (new & Hl & _).
    rewrite Run_phases, bind_unfold, Hl, bind_unfold.
    assert (Hlaunch : Forall (λ e, chan_of e = StopCh sched ∨
                                   e = cache_WaitForCacheSync (context.Done ctx) [])
              (recording_of sched ++
               go_Run (informers.Informer pi) (StopCh sched) :: Start (StopCh sched) ::
               ((λ i, go_Run i (StopCh sched)) <$> new))).
    { apply Forall_app. split; [done|]. do 2 (constructor; [by left|]).
      apply Forall_fmap, Forall_forall. intros i _. by left. }
    unfold Run_wait, InformerFactory_WaitForCacheSync. rewrite Hfac. simpl.
    rewrite bind_unfold. simpl. rewrite bind_unfold.
    rewrite (bind_unfold (emit _)). simpl. rewrite bind_unfold. simpl.
    match goal with |- context [wait_each tl ?l ?c ?s0] =>
      destruct (wait_each_chan c l s0) as (evs & Htr & Hevs);
      destruct (wait_each tl l c s0) as [res s1|s1|s1] end; simpl in *.
    + pose proof (WaitForCacheSync_spec tl (context.Done ctx) [] s1) as Hw2.
      destruct (WaitForCacheSync tl (context.Done ctx) [] s1) as [b s2|s2|s2]; [| |done].
      * destruct Hw2 as (_ & Hb & _ & Htr2).
        assert (b = true) as -> by (apply Hb; constructor).
        rewrite Run_finish_spec.
        exists ((recording_of sched ++
                 go_Run (informers.Informer pi) (StopCh sched) :: Start (StopCh sched) ::
                 ((λ i, go_Run i (StopCh sched)) <$> new)) ++
                Factory_WaitForCacheSync (StopCh sched) :: evs ++
                [cache_WaitForCacheSync (context.Done ctx) []; receive (StopCh sched)]).
        split.
        -- destruct (closed_at tl (StopCh sched)); simpl; rewrite Htr2, Htr;
             rewrite <-!app_assoc; simpl; rewrite <-?app_assoc; done.
        -- apply Forall_app. split; [done|]. constructor; [by left|].
           apply Forall_app. split.
           ++ eapply Forall_impl; [exact Hevs|]. intros e He. by left.
           ++ constructor; [by right|]. constructor; [by left|constructor].
      * destruct Hw2 as (_ & _ & _ & Htr2). simpl.
        exists ((recording_of sched ++
                 go_Run (informers.Informer pi) (StopCh sched) :: Start (StopCh sched) ::
                 ((λ i, go_Run i (StopCh sched)) <$> new)) ++
                Factory_WaitForCacheSync (StopCh sched) :: evs ++
                [cache_WaitForCacheSync (context.Done ctx) []]).
        split.
        -- rewrite Htr2, Htr. rewrite <-!app_assoc; simpl; rewrite <-?app_assoc; done.
        -- apply Forall_app. split; [done|]. constructor; [by left|].
           apply Forall_app. split.
           ++ eapply Forall_impl; [exact Hevs|]. intros e He. by left.
           ++ constructor; [by right|constructor].
    + exists ((recording_of sched ++
               go_Run (informers.Informer pi) (StopCh sched) :: Start (StopCh sched) ::
               ((λ i, go_Run i (StopCh sched)) <$> new)) ++
              Factory_WaitForCacheSync (StopCh sched) :: evs).
      split; [rewrite Htr; by rewrite <-!app_assoc|].
      apply Forall_app. split; [done|]. constructor; [by left|].
      eapply Forall_impl; [exact Hevs|]. intros e He. by left.
    + exists ((recording_of sched ++
               go_Run (informers.Informer pi) (StopCh sched) :: Start (StopCh sched) ::
               ((λ i, go_Run i (StopCh sched)) <$> new)) ++
              Factory_WaitForCacheSync (StopCh sched) :: evs).
      split; [rewrite Htr; by rewrite <-!app_assoc|].
      apply Forall_app. split; [done|]. constructor; [by left|].
      eapply Forall_impl; [exact Hevs|]. intros e He. by left.
  - rewrite Hp. simpl. eexists. split; [done|].
    apply Forall_app. split; [done|]. constructor; [by left|constructor].
  - rewrite Hp. simpl. by eexists.
Qed.

End run_outcomes.

(** * Construction, then a run *)

Section lifecycle.
Import schedulerappconfig multischeduler.
Variable k : Cluster.
Variable tl : Timeline.

(** The handle [NewScheduler] returns, field by field. *)
Lemma handle_of_NewScheduler (ctx : context.Context) (cc : schedulerappconfig.Config)
    (stopCh : chan) (sched : Scheduler) :
  returned (NewScheduler k ctx cc stopCh) = Some (Some sched, None) →
  ∃ c, Client cc = Some c ∧
       StopCh sched = stopCh ∧
       PodInformer (Config sched) = PodInformer cc ∧
       InformerFactory (Config sched) = InformerFactory cc ∧
       EventClient (Config sched) = EventClient cc ∧
       ((is_Some (discovery k c eventsv1beta1.SchemeGroupVersion_String) ∧
         Broadcaster (Config sched) = Broadcaster cc) ∨
        (discovery k c eventsv1beta1.SchemeGroupVersion_String = None ∧
         ∃ ec, EventClient cc = Some ec ∧
               Broadcaster (Config sched) = Some (sink_broadcaster ec))).
Proof.
  intros Hret.
  destruct (NewScheduler_returned k _ _ _ _ Hret) as (cc' & rf & c & Hc & Heq & Hbranch).
  rewrite Heq, NewScheduler_end_returned in Hret.
  destruct ((construct k _).2); [discriminate|]. injection Hret as <-.
  exists c. simpl.
  destruct Hbranch as [(Hd & -> & _)|(Hd & ec & Hec & -> & _)]; simpl.
  - split_and!; try done. by left.
  - split_and!; try done. right. split; [done|]. by exists ec.
Qed.

(** ** Which broadcaster a handle records with *)

(** X8.  On a cluster where the probe succeeds, the first call of every run
    of the handle [NewScheduler] returned starts the recording of the
    broadcaster made at line 99, on the stop channel that was passed to
    [NewScheduler]; it is the only recording of the run.  A broadcaster the
    caller had put in the configuration is never started. *)
Theorem handle_records_to_the_sink (ctx0 ctx : context.Context)
    (cc : schedulerappconfig.Config) (stopCh : chan) (sched : Scheduler)
    (c : Client_Interface) (t0 : time) :
  returned (NewScheduler k ctx0 cc stopCh) = Some (Some sched, None) →
  Client cc = Some c →
  discovery k c eventsv1beta1.SchemeGroupVersion_String = None →
  ∃ ec rest,
    EventClient cc = Some ec ∧
    trace (final (Run tl sched ctx (boot t0))) =
      StartRecordingToSink
        (events.NewBroadcaster {| events.Interface := events.Events ec "" |}) stopCh :: rest ∧
    Forall (λ e, step_of e ≠ recording) rest.
Proof.
  intros Hret Hc Hd.
  destruct (handle_of_NewScheduler _ _ _ _ Hret)
    as (c' & Hc' & Hstop & _ & _ & Hec & Hb).
  rewrite Hc in Hc'. injection Hc' as <-.
  destruct Hb as [[Hs _]|(_ & ec & Hcc & Hb)]; [rewrite Hd in Hs; by destruct Hs|].
  destruct (Run_trace_head tl sched ctx t0) as (rest & Htr & Hrest).
  exists ec, rest. split; [done|]. split; [|done].
  rewrite Htr. unfold recording_of. by rewrite Hb, Hec, Hcc, Hstop.
Qed.

(** X9.  On a cluster where the probe fails, a run of the handle
    [NewScheduler] returned records events if and only if the caller had put
    both a broadcaster and an event client in the configuration, and then
    with the caller's broadcaster, as its first call: the compatibility
    factory starts no recording of its own. *)
Theorem handle_records_as_configured (ctx0 ctx : context.Context)
    (cc : schedulerappconfig.Config) (stopCh : chan) (sched : Scheduler)
    (c : Client_Interface) (t0 : time) :
  returned (NewScheduler k ctx0 cc stopCh) = Some (Some sched, None) →
  Client cc = Some c →
  is_Some (discovery k c eventsv1beta1.SchemeGroupVersion_String) →
  ∃ rest,
    trace (final (Run tl sched ctx (boot t0))) =
      match Broadcaster cc, EventClient cc with
      | Some b, Some _ => [StartRecordingToSink b stopCh]
      | _, _ => []
      end ++ rest ∧
    Forall (λ e, step_of e ≠ recording) rest.
Proof.
  intros Hret Hc Hd.
  destruct (handle_of_NewScheduler _ _ _ _ Hret)
    as (c' & Hc' & Hstop & _ & _ & Hec & Hb).
  rewrite Hc in Hc'. injection Hc' as <-.
  destruct Hb as [[_ Hb]|(Hn & _)]; [|rewrite Hn in Hd; by destruct Hd].
  destruct (Run_trace_head tl sched ctx t0) as (rest & Htr & Hrest).
  exists rest. split; [|done].
  rewrite Htr. unfold recording_of. by rewrite Hb, Hec, Hstop.
Qed.

(** ** What a run of the returned handle does *)

(** X10.  What a run of the handle [NewScheduler] returned does is decided
    by what the caller put in the configuration, which [NewScheduler] has not
    looked at: with a pod informer and an informer factory the run returns
    nil when the stop channel passed to [NewScheduler] is closed, at that
    moment (at once if it is closed already), and does not return if it never
    is; without one of them the run panics. *)
Theorem run_of_the_returned_handle (ctx0 ctx : context.Context)
    (cc : schedulerappconfig.Config) (stopCh : chan) (sched : Scheduler) (s : Proc) :
  returned (NewScheduler k ctx0 cc stopCh) = Some (Some sched, None) →
  match PodInformer cc, InformerFactory cc with
  | Some _, Some _ =>
      match closed_at tl stopCh with
      | Some t => ∃ s', Run tl sched ctx s = Returns None s' ∧ now s' = now s `max` t
      | None => ∃ s', Run tl sched ctx s = Blocks s'
      end
  | _, _ => ∃ s', Run tl sched ctx s = Panics s'
  end.
Proof.
  intros Hret.
  destruct (handle_of_NewScheduler _ _ _ _ Hret)
    as (c & _ & Hstop & Hpi & Hfac & _).
  pose proof (Run_by_informers tl sched ctx s) as Hp.
  rewrite Hpi, Hfac in Hp.
  destruct (PodInformer cc) as [pi|]; [destruct (InformerFactory cc) as [fac|]|];
    try by eexists.
  rewrite <-Hstop. by apply (Run_outcome tl sched ctx s pi fac).
Qed.

End lifecycle.

(** * The further properties at the concrete inputs *)

Section more_examples.
Import schedulerappconfig multischeduler inputs.

(** On the hollow cluster the handle embeds a nil core. *)
Lemma handle_iff_no_error_witness :
  let sched := {| Scheduler_embedded := None;
                  Config := set_Broadcaster (Some (sink_broadcaster 3)) complete;
                  StopCh := stop |} in
  returned (NewScheduler hollow ctx complete stop) = Some (Some sched, None) ∧
  (Some sched = None ↔ is_Some (@None error)) ∧
  ∀ sched', Some sched = Some sched' →
    StopCh sched' = stop ∧
    ∃ args, scheduler_New args ∈ calls (final (NewScheduler hollow ctx complete stop)) ∧
            construct hollow args = (Scheduler_embedded sched', None).
Proof.
  intros sched. split; [reflexivity|].
  exact (handle_iff_no_error hollow ctx complete stop (Some sched) None eq_refl).
Defined.

(** The options of the core built for the complete configuration. *)
Lemma core_built_from_component_config_witness :
  let args := New_args (set_Broadcaster (Some (sink_broadcaster 3)) complete)
                (profile.NewRecorderFactory (Some (sink_broadcaster 3))) stop in
  scheduler_New args ∈ calls (final (NewScheduler modern ctx complete stop)) ∧
  scheduler.stopCh args = stop ∧
  scheduler.opts args =
    [ scheduler.WithProfiles [ {| SchedulerName := "default-scheduler" |} ];
      scheduler.WithAlgorithmSource {| Provider := Some "DefaultProvider" |};
      scheduler.WithPreemptionDisabled false;
      scheduler.WithPercentageOfNodesToScore 0;
      scheduler.WithBindTimeoutSeconds 600;
      scheduler.WithFrameworkOutOfTreeRegistry ∅;
      scheduler.WithPodMaxBackoffSeconds 10;
      scheduler.WithPodInitialBackoffSeconds 1;
      scheduler.WithExtenders [] ] ∧
  ∀ sched, returned (NewScheduler modern ctx complete stop) = Some (Some sched, None) →
           StopCh sched = scheduler.stopCh args.
Proof.
  intros args.
  assert (Hin : scheduler_New args ∈ calls (final (NewScheduler modern ctx complete stop))).
  { apply list_elem_of_further, list_elem_of_here. }
  split; [exact Hin|].
  exact (core_built_from_component_config modern ctx complete stop args Hin).
Defined.

(** On the legacy cluster the factory of a configuration without legacy
    broadcaster is returned, and panics on every name. *)
Lemma recorders_of_the_factory_witness :
  let s := {| frame_cc := no_core_broadcaster; calls := [] |} in
  let rf := adapter_factory None in
  getRecorderFactory legacy address_of_cc s = Returns rf {| frame_cc := no_core_broadcaster;
                                                            calls := [probe] |} ∧
  (∀ n1 n2 r, rf n1 = Some r → rf n2 = Some r → n1 = n2) ∧
  ((∀ name, is_Some (rf name)) ∨ (∀ name, rf name = None)) ∧
  ((∀ name, rf name = None) ↔
   CoreBroadcaster (frame_cc s) = None ∧
   ∃ c, Client (frame_cc s) = Some c ∧
        is_Some (discovery legacy c eventsv1beta1.SchemeGroupVersion_String)).
Proof.
  intros s rf.
  assert (Hrf : getRecorderFactory legacy address_of_cc s =
                Returns rf {| frame_cc := no_core_broadcaster; calls := [probe] |})
    by reflexivity.
  split; [exact Hrf|].
  exact (recorders_of_the_factory legacy address_of_cc s _ rf Hrf).
Defined.

(** On the modern cluster the handle of the complete configuration records
    with the sink broadcaster of client 3, not with broadcaster 9. *)
Lemma handle_records_to_the_sink_witness :
  let sched := {| Scheduler_embedded := Some {| scheduler.core := 1 |};
                  Config := set_Broadcaster (Some (sink_broadcaster 3)) complete;
                  StopCh := stop |} in
  returned (NewScheduler modern ctx complete stop) = Some (Some sched, None) ∧
  Client complete = Some 1 ∧
  discovery modern 1 eventsv1beta1.SchemeGroupVersion_String = None ∧
  ∃ ec rest,
    EventClient complete = Some ec ∧
    trace (final (Run clean_run sched ctx (boot 0))) =
      StartRecordingToSink
        (events.NewBroadcaster {| events.Interface := events.Events ec "" |}) stop :: rest ∧
    Forall (λ e, step_of e ≠ recording) rest.
Proof.
  intros sched. split; [reflexivity|]. split; [reflexivity|]. split; [reflexivity|].
  exact (handle_records_to_the_sink modern clean_run ctx ctx complete stop sched 1 0
           eq_refl eq_refl eq_refl).
Defined.

(** On the legacy cluster the handle of the complete configuration records
    with broadcaster 9, which the caller supplied. *)
Lemma handle_records_as_configured_witness :
  let sched := {| Scheduler_embedded := Some {| scheduler.core := 1 |};
                  Config := complete; StopCh := stop |} in
  returned (NewScheduler legacy ctx complete stop) = Some (Some sched, None) ∧
  Client complete = Some 1 ∧
  is_Some (discovery legacy 1 eventsv1beta1.SchemeGroupVersion_String) ∧
  ∃ rest,
    trace (final (Run clean_run sched ctx (boot 0))) =
      [StartRecordingToSink (events.Supplied 9) stop] ++ rest ∧
    Forall (λ e, step_of e ≠ recording) rest.
Proof.
  intros sched.
  assert (Hd : is_Some (discovery legacy 1 eventsv1beta1.SchemeGroupVersion_String))
    by (eexists; reflexivity).
  split; [reflexivity|]. split; [reflexivity|]. split; [exact Hd|].
  exact (handle_records_as_configured legacy clean_run ctx ctx complete stop sched 1 0
           eq_refl eq_refl Hd).
Defined.

(** The handle of the complete configuration, run from 0 on the clean run,
    returns nil at 10. *)
Lemma run_of_the_returned_handle_witness :
  let sched := {| Scheduler_embedded := Some {| scheduler.core := 1 |};
                  Config := set_Broadcaster (Some (sink_broadcaster 3)) complete;
                  StopCh := stop |} in
  returned (NewScheduler modern ctx complete stop) = Some (Some sched, None) ∧
  ∃ s', Run clean_run sched ctx (boot 0) = Returns None s' ∧ now s' = 0 `max` 10.
Proof.
  intros sched. split; [reflexivity|].
  exact (run_of_the_returned_handle modern clean_run ctx ctx complete stop sched (boot 0)
           eq_refl).
Defined.

End more_examples.
